(** * Zoning-overlap resolution ([fn_overlap.overlap]).

    A shallow embedding of [overlap] from [fn_overlap.py], the function that
    reduces a one-to-many parcel/zone join to one zone label per parcel.

    Conventions of the embedding.
    - A (Geo)DataFrame is a [Frame]: the names of its columns and its rows in
      order.  The rows of each of the three inputs are records whose fields
      hold the cells of the columns the function reads: the column named by
      the argument [apn], the column named by [zone] and the column
      ["geometry"].  A field of a column the frame does not have is never
      read: the column lookup raises first, as in pandas.  The three names
      are taken to denote three different columns, and none of them is
      ["overlap_area"], the scratch column line 55 adds to the overlay
      result: under that name line 55 would write the areas over the
      identifiers or the labels.  A statement that depends on it carries
      it as a hypothesis on [apn] and [zone].
    - A cell may be null ([None]/[NaN]): identifiers and labels are options.
    - A pandas Series is an association list from index labels to values, in
      order and with duplicates.  pandas lists the groups of a [groupby] by
      increasing key; here they come in the order of [remove_dups].  The
      order of the groups never reaches the output, whose rows follow
      [parcels] and which reads the Series by key only.
    - geopandas and the geometry engine are an interface ([GeoOps]): the
      intersection test and the intersection of two geometries, reprojection
      and area; [estimate_utm_crs] is a function of the parcel frame that may
      find no CRS.  The library calls are modelled by the values they
      return: a run in which geopandas, pyproj or the merge itself raises is
      outside the model.  Areas are rationals.
    - Exceptions are values of [exn]; a computation that may raise returns
      [result]. *)

From Stdlib Require Import QArith Lqa.
From stdpp Require Import base decidable option list strings.

Close Scope Q_scope.
Open Scope string_scope.
Open Scope list_scope.
Open Scope nat_scope.

Set Default Proof Using "Type".

(** ** Exceptions *)

Inductive exn : Type :=
  | KeyError (missing : list string)
  | ValueError (msg : string).

Definition result (A : Type) : Type := (exn + A)%type.

Definition Ok {A} (x : A) : result A := inr x.
Definition Raise {A} (e : exn) : result A := inl e.

Definition rbind {A B} (m : result A) (f : A → result B) : result B :=
  match m with
  | inl e => inl e
  | inr x => f x
  end.

Notation "'do' x <- m ; k" := (rbind m (λ x, k))
  (at level 20, x name, m at level 100, k at level 200,
   format "'[v' 'do'  x  <-  m ; '/' k ']'").
Notation "'do_' m ; k" := (rbind m (λ _, k))
  (at level 20, m at level 100, k at level 200,
   format "'[v' 'do_'  m ; '/' k ']'").

(** ** Data frames *)

Record Frame (R : Type) : Type := mkFrame {
  columns : list string;
  rows : list R
}.
Arguments mkFrame {R} _ _.
Arguments columns {R} _.
Arguments rows {R} _.

(** [df[c]], [df[[c1, c2]]], [df.groupby(c)], [left_on=c]: looking up columns
    raises [KeyError] with the names the frame does not have. *)
Definition require {R} (cs : list string) (df : Frame R) : result unit :=
  match filter (λ c, c ∉ columns df) cs with
  | [] => Ok tt
  | missing => Raise (KeyError missing)
  end.

(** ** Rational comparison as the code uses it ([>], argmax) *)

Definition Qlt_bool (x y : Q) : bool := negb (Qle_bool y x).

(** ** The geometry interface *)

Record GeoOps (Geom CRS : Type) : Type := mkGeoOps {
  (** the predicate ["intersects"] of the spatial index query *)
  intersects : Geom → Geom → bool;
  (** [GeoSeries.intersection], row-wise *)
  intersection : Geom → Geom → Geom;
  (** [to_crs] on one geometry *)
  to_crs : CRS → Geom → Geom;
  (** [GeoSeries.area] on one geometry *)
  area : Geom → Q
}.
Arguments mkGeoOps {Geom CRS} _ _ _ _.
Arguments intersects {Geom CRS} _ _ _.
Arguments intersection {Geom CRS} _ _ _.
Arguments to_crs {Geom CRS} _ _ _.
Arguments area {Geom CRS} _ _.

(** ** Rows *)

Section Rows.
Context {K L Geom : Type}.

Record ParcelRow : Type := mkParcel { p_apn : option K; p_geom : Geom }.
Record ZoneRow : Type := mkZone { z_zone : option L; z_geom : Geom }.
Record JoinRow : Type :=
  mkJoin { j_apn : option K; j_zone : option L; j_geom : Geom }.

(** A row of [gpd.overlay]'s result: its label in the result's
    [RangeIndex], the attributes of the parcel and of the zone, and the
    intersection. *)
Record OvRow : Type :=
  mkOv { o_idx : nat; o_apn : K; o_zone : option L; o_geom : Geom }.
End Rows.
Arguments ParcelRow : clear implicits.
Arguments ZoneRow : clear implicits.
Arguments JoinRow : clear implicits.
Arguments OvRow : clear implicits.

Section Overlap.
Context {K L Geom CRS : Type} `{!EqDecision K, !EqDecision L}.
Variable G : GeoOps Geom CRS.
(** [parcels.estimate_utm_crs()], [None] when there is no such CRS. *)
Variable estimate_utm_crs : Frame (ParcelRow K Geom) → option CRS.

Abbreviation Parcel := (ParcelRow K Geom).
Abbreviation Zone := (ZoneRow L Geom).
Abbreviation Join := (JoinRow K L Geom).
Abbreviation Ov := (OvRow K L Geom).
Abbreviation Series V := (list (K * V)).

(** *** Singles (lines 27-30) *)

(** [Series.nunique(dropna=True)] *)
Definition nunique (vs : list (option L)) : nat :=
  length (remove_dups (omap id vs)).

(** [joined_gdf.groupby(apn)[zone]]: the group of key [k].  Rows with a
    null key are in no group. *)
Definition zone_group (J : list Join) (k : K) : list (option L) :=
  j_zone <$> filter (λ r, j_apn r = Some k) J.

(** [joined_gdf.groupby(apn)[zone].nunique(dropna=True)] *)
Definition zones_per_apn (J : list Join) : Series nat :=
  (λ k, (k, nunique (zone_group J k))) <$> remove_dups (omap j_apn J).

(** [zones_per_apn[zones_per_apn == 1].index] *)
Definition single_ids (J : list Join) : list K :=
  fst <$> filter (λ kn, kn.2 = 1) (zones_per_apn J).

(** [joined_gdf.loc[joined_gdf[apn].isin(single_ids)].set_index(apn)[zone]] *)
Definition single_map (J : list Join) : Series (option L) :=
  omap (λ r, k ← j_apn r;
             if decide (k ∈ single_ids J) then Some (k, j_zone r) else None) J.

(** *** Duplicates (lines 34-64) *)

(** [zones_per_apn[zones_per_apn > 1].index] *)
Definition dup_ids (J : list Join) : list K :=
  fst <$> filter (λ kn, 1 < kn.2) (zones_per_apn J).

(** [parcels.loc[parcels[apn].isin(dup_ids), [apn, "geometry"]]] *)
Definition dup_parcels (P : list Parcel) (J : list Join) : list (K * Geom) :=
  omap (λ r, k ← p_apn r;
             if decide (k ∈ dup_ids J) then Some (k, p_geom r) else None) P.

(** [zones[[zone, "geometry"]]] *)
Definition zone_cols (Z : list Zone) : list (option L * Geom) :=
  (λ z, (z_zone z, z_geom z)) <$> Z.

(** [gpd.overlay(df1, df2, how="intersection", keep_geom_type=False)]: one
    row for each pair of a row of [df1] and a row of [df2] whose geometries
    intersect, ordered by the row of [df1] and then by the row of [df2],
    with the attributes of both and the intersection as geometry; the
    result is indexed 0, 1, 2, ... *)
Definition overlay_pairs (df1 : list (K * Geom)) (df2 : list (option L * Geom))
    : list (K * option L * Geom) :=
  p ← df1;
  omap (λ z, if intersects G p.2 z.2
             then Some (p.1, z.1, intersection G p.2 z.2) else None) df2.

Definition overlay (df1 : list (K * Geom)) (df2 : list (option L * Geom))
    : list Ov :=
  imap (λ i t, mkOv i t.1.1 t.1.2 t.2) (overlay_pairs df1 df2).

(** [overlaps.to_crs(area_crs)] *)
Definition to_crs_row (c : CRS) (r : Ov) : Ov :=
  mkOv (o_idx r) (o_apn r) (o_zone r) (to_crs G c (o_geom r)).

(** [ovr_area] with its column ["overlap_area"] (lines 52-55).  The areas
    sit beside the identifier and the label of the row, as they do in the
    code when neither [apn] nor [zone] is ["overlap_area"]. *)
Definition ovr_area (c : CRS) (ov : list Ov) : list (Ov * Q) :=
  (λ r, let r' := to_crs_row c r in (r', area G (o_geom r'))) <$> ov.

(** [ovr_area[ovr_area["overlap_area"] > 0]] *)
Definition poly_area (c : CRS) (ov : list Ov) : list (Ov * Q) :=
  filter (λ ra, Qlt_bool 0 ra.2 = true) (ovr_area c ov).

(** The group of key [k] in [poly_area.groupby(apn)] *)
Definition area_group (pa : list (Ov * Q)) (k : K) : list (Ov * Q) :=
  filter (λ ra, o_apn ra.1 = k) pa.

(** argmax of a non-empty column: the running best is replaced only by a
    strictly larger value, so the first row of maximal value wins. *)
Fixpoint argmax_from (best : Ov * Q) (g : list (Ov * Q)) : Ov * Q :=
  match g with
  | [] => best
  | ra :: g' =>
      if Qlt_bool best.2 ra.2 then argmax_from ra g' else argmax_from best g'
  end.

(** [Series.idxmax] of one group: the index label of the argmax *)
Definition idxmax (g : list (Ov * Q)) : option nat :=
  match g with
  | [] => None
  | ra :: g' => Some (o_idx (argmax_from ra g').1)
  end.

(** [poly_area.groupby(apn)["overlap_area"].idxmax()] (line 61) *)
Definition idxmax_per_apn (pa : list (Ov * Q)) : list nat :=
  omap (λ k, idxmax (area_group pa k)) (remove_dups ((λ ra, o_apn ra.1) <$> pa)).

(** [poly_area.loc[idx]]: the rows carrying the labels, label by label *)
Definition loc (pa : list (Ov * Q)) (idx : list nat) : list (Ov * Q) :=
  i ← idx; filter (λ ra, o_idx ra.1 = i) pa.

(** [poly_area.loc[idx].set_index(apn)[zone]] (line 64) *)
Definition multi_map_of (pa : list (Ov * Q)) : Series (option L) :=
  (λ ra, (o_apn ra.1, o_zone ra.1)) <$> loc pa (idxmax_per_apn pa).

(** *** Combination (lines 68-73) *)

(** [GroupBy.last] on one group: the last value that is not null *)
Definition last_valid (vs : list (option L)) : option L :=
  mjoin (last (filter is_Some vs)).

(** [s.groupby(level=0).last()] *)
Definition groupby_last (s : Series (option L)) : Series (option L) :=
  (λ k, (k, last_valid (snd <$> filter (λ kv, kv.1 = k) s)))
    <$> remove_dups (fst <$> s).

(** [left.merge(right, left_on=apn, right_index=True, how="left")]: each
    left row is paired with every right row of its key, and with a null
    when there is none. The right index holds no null key. *)
Definition merge_left (P : list Parcel) (right : Series (option L))
    : list (Parcel * option L) :=
  r ← P;
  match filter (λ kv, p_apn r = Some kv.1) right with
  | [] => [(r, None)]
  | ms => (λ kv, (r, kv.2)) <$> ms
  end.

(** The columns of [left.merge(right, ...)] for a Series [right] of name
    [name]: a name that both sides have gets the suffixes [_x] and [_y]. *)
Definition merge_columns (cols : list string) (name : string) : list string :=
  if decide (name ∈ cols)
  then ((λ c, if decide (c = name) then String.append name "_x" else c)
          <$> cols) ++ [String.append name "_y"]
  else cols ++ [name].

Definition crs_error : exn :=
  ValueError "Could not estimate a projected CRS for area calculations.".

(** The branch [if len(dup_ids) > 0] (lines 38-64), yielding [multi_map] *)
Definition resolve_dups (parcels : Frame Parcel) (zones : Frame Zone)
    (J : list Join) (apn zone : string) : result (Series (option L)) :=
  do_ require [apn] parcels;
  do_ require [apn; "geometry"] parcels;
  let dp := dup_parcels (rows parcels) J in
  do_ require [zone; "geometry"] zones;
  let overlaps := overlay dp (zone_cols (rows zones)) in
  match estimate_utm_crs parcels with
  | None => Raise crs_error
  | Some area_crs =>
      let pa := poly_area area_crs overlaps in
      if decide (pa ≠ []) then Ok (multi_map_of pa) else Ok []
  end.

(** The value of [multi_map] at line 68 *)
Definition multi_map (parcels : Frame Parcel) (zones : Frame Zone)
    (J : list Join) (apn zone : string) : result (Series (option L)) :=
  if decide (0 < length (dup_ids J))
  then resolve_dups parcels zones J apn zone
  else Ok [].

Definition overlap (parcels : Frame Parcel) (zones : Frame Zone)
    (joined_gdf : Frame Join) (apn zone zone_out : string)
    : result (Frame (Parcel * option L)) :=
  do_ require [apn] joined_gdf;
  do_ require [zone] joined_gdf;
  let J := rows joined_gdf in
  do multi_map <- multi_map parcels zones J apn zone;
  let final_map := groupby_last (single_map J ++ multi_map) in
  do_ require [apn] parcels;
  Ok (mkFrame (merge_columns (columns parcels) zone_out)
              (merge_left (rows parcels) final_map)).

(** *** Notions the statements use *)

(** The positive-area records of the ambiguous parcels, in the order of the
    overlay: [poly_area] at line 56. *)
Definition dup_records (c : CRS) (P : list Parcel) (Z : list Zone)
    (J : list Join) : list (Ov * Q) :=
  poly_area c (overlay (dup_parcels P J) (zone_cols Z)).

(** The record [idxmax] picks for key [k] *)
Definition winner_of (pa : list (Ov * Q)) (k : K) : option (Ov * Q) :=
  match area_group pa k with
  | [] => None
  | ra :: g => Some (argmax_from ra g)
  end.

(** What the left merge reads for a parcel of identifier [ko] when the
    right side is [groupby_last s] *)
Definition final_label (s : Series (option L)) (ko : option K) : option L :=
  match ko with
  | None => None
  | Some k => last_valid (snd <$> filter (λ kv, kv.1 = k) s)
  end.
End Overlap.

(** ** A one-dimensional geometry

    Segments of the integer line stand for polygons in the examples: two
    segments intersect when they share a point, their intersection is the
    common segment, and the area of a segment is its length. Two segments
    that only touch intersect in a segment of area 0. *)

Module Line.
Record segment : Type := mkSeg { lo : Z; hi : Z }.

Definition seg_intersects (a b : segment) : bool :=
  (Z.max (lo a) (lo b) <=? Z.min (hi a) (hi b))%Z.

Definition seg_intersection (a b : segment) : segment :=
  mkSeg (Z.max (lo a) (lo b)) (Z.min (hi a) (hi b)).

Definition seg_area (a : segment) : Q := inject_Z (hi a - lo a).

(** The only CRS of the line; reprojection changes nothing. *)
Definition ops : GeoOps segment unit :=
  mkGeoOps seg_intersects seg_intersection (λ _ g, g) seg_area.

(** A frame on which a UTM CRS is found, and one on which none is. *)
Definition utm_found : Frame (ParcelRow string segment) → option unit :=
  λ _, Some tt.
Definition utm_missing : Frame (ParcelRow string segment) → option unit :=
  λ _, None.

Definition parcel (k : string) (a b : Z) : ParcelRow string segment :=
  mkParcel (Some k) (mkSeg a b).
Definition zone_row (l : string) (a b : Z) : ZoneRow string segment :=
  mkZone (Some l) (mkSeg a b).
Definition join_row (k l : string) : JoinRow string string segment :=
  mkJoin (Some k) (Some l) (mkSeg 0 0).

Definition parcel_cols : list string := ["APN"; "geometry"].
Definition zone_cols_ : list string := ["ZONING"; "geometry"].
Definition join_cols : list string := ["APN"; "ZONING"; "geometry"].

Definition run (utm : Frame (ParcelRow string segment) → option unit)
    (P : Frame (ParcelRow string segment))
    (Z : Frame (ZoneRow string segment))
    (J : Frame (JoinRow string string segment)) :=
  overlap ops utm P Z J "APN" "ZONING" "ZONING_final".

(** The scenario of the specification: P1 meets R1 on 100 and C1 on 300,
    P2 has one join row, P3 has none. *)
Definition P0 : Frame (ParcelRow string segment) :=
  mkFrame parcel_cols
    [parcel "P1" 0 400; parcel "P2" 500 600; parcel "P3" 700 800].
Definition Z0 : Frame (ZoneRow string segment) :=
  mkFrame zone_cols_ [zone_row "R1" 0 100; zone_row "C1" 100 400].
Definition J0 : Frame (JoinRow string string segment) :=
  mkFrame join_cols
    [join_row "P1" "R1"; join_row "P1" "C1"; join_row "P2" "R1"].
Definition out0 : Frame (ParcelRow string segment * option string) :=
  mkFrame ["APN"; "geometry"; "ZONING_final"]
    [(parcel "P1" 0 400, Some "C1"); (parcel "P2" 500 600, Some "R1");
     (parcel "P3" 700 800, None)].

(** A join table with unambiguous parcels only; P2 has three rows, one of
    them with a null label. *)
Definition J_single : Frame (JoinRow string string segment) :=
  mkFrame join_cols
    [join_row "P2" "R1"; mkJoin (Some "P2") None (mkSeg 0 0);
     join_row "P2" "R1"; join_row "P3" "C1"].


(** A join table that knows two of the three zones parcel X lies in: X
    meets A on 3, B on 2 and C on 5. *)
Definition P_x : Frame (ParcelRow string segment) :=
  mkFrame parcel_cols [parcel "X" 0 10].
Definition Z_abc : Frame (ZoneRow string segment) :=
  mkFrame zone_cols_ [zone_row "A" 0 3; zone_row "B" 3 5; zone_row "C" 5 10].
Definition J_ab : Frame (JoinRow string string segment) :=
  mkFrame join_cols [join_row "X" "A"; join_row "X" "B"].
Definition out_c : Frame (ParcelRow string segment * option string) :=
  mkFrame ["APN"; "geometry"; "ZONING_final"] [(parcel "X" 0 10, Some "C")].

(** A tie: X meets S on 2, then A on 4 and B on 4. *)
Definition Z_tie : Frame (ZoneRow string segment) :=
  mkFrame zone_cols_ [zone_row "S" 0 2; zone_row "A" 2 6; zone_row "B" 6 10].
Definition J_tie : Frame (JoinRow string string segment) :=
  mkFrame join_cols [join_row "X" "S"; join_row "X" "A"; join_row "X" "B"].
Definition out_tie : Frame (ParcelRow string segment * option string) :=
  mkFrame ["APN"; "geometry"; "ZONING_final"] [(parcel "X" 0 10, Some "A")].
Definition rec_S : OvRow string string segment * Q :=
  (mkOv 0 "X" (Some "S") (mkSeg 0 2), inject_Z 2).
Definition rec_A : OvRow string string segment * Q :=
  (mkOv 1 "X" (Some "A") (mkSeg 2 6), inject_Z 4).
Definition rec_B : OvRow string string segment * Q :=
  (mkOv 2 "X" (Some "B") (mkSeg 6 10), inject_Z 4).

(** Zones that only touch: X lies in A and touches B at 10; Y touches T
    at 30, its only candidate. *)
Definition P_xy : Frame (ParcelRow string segment) :=
  mkFrame parcel_cols [parcel "X" 0 10; parcel "Y" 20 30].
Definition Z_touch : Frame (ZoneRow string segment) :=
  mkFrame zone_cols_
    [zone_row "B" 10 15; zone_row "A" 0 10; zone_row "T" 30 40].
Definition J_touch : Frame (JoinRow string string segment) :=
  mkFrame join_cols [join_row "X" "B"; join_row "X" "A"; join_row "Y" "T"].
Definition out_touch : Frame (ParcelRow string segment * option string) :=
  mkFrame ["APN"; "geometry"; "ZONING_final"]
    [(parcel "X" 0 10, Some "A"); (parcel "Y" 20 30, Some "T")].

(** The pairs of [J_single], each once *)
Definition J_pairs : Frame (JoinRow string string segment) :=
  mkFrame join_cols [join_row "P3" "C1"; join_row "P2" "R1"].

(** [J0] with its first two rows exchanged *)
Definition J0_swapped : Frame (JoinRow string string segment) :=
  mkFrame join_cols
    [join_row "P1" "C1"; join_row "P1" "R1"; join_row "P2" "R1"].


(** A Parcel collection that already has a column of the output's name *)
Definition P_labelled : Frame (ParcelRow string segment) :=
  mkFrame ["APN"; "ZONING_final"; "geometry"] [parcel "P2" 500 600].

(** Zones that X only touches or misses *)
Definition Z_far : Frame (ZoneRow string segment) :=
  mkFrame zone_cols_ [zone_row "A" 10 15; zone_row "B" 20 30].
Definition out_null : Frame (ParcelRow string segment * option string) :=
  mkFrame ["APN"; "geometry"; "ZONING_final"] [(parcel "X" 0 10, None)].

(** Two parcel rows with the identifier X *)
Definition P_dup : Frame (ParcelRow string segment) :=
  mkFrame parcel_cols [parcel "X" 0 4; parcel "X" 4 10].
Definition out_dup : Frame (ParcelRow string segment * option string) :=
  mkFrame ["APN"; "geometry"; "ZONING_final"]
    [(parcel "X" 0 4, Some "C"); (parcel "X" 4 10, Some "C")].
End Line.


(** Case analysis on membership in an explicit list *)
Ltac elem_cases H :=
  first
    [ apply elem_of_nil in H; destruct H
    | apply elem_of_cons in H as [H|H]; [subst|elem_cases H] ].

(** * Properties *)

(** ** Comparison of areas *)

Lemma Qlt_bool_iff (x y : Q) : Qlt_bool x y = true ↔ (x < y)%Q.
Proof.
  unfold Qlt_bool. rewrite negb_true_iff. split.
  - intros H. apply Qnot_le_lt. intros Hle.
    apply Qle_bool_iff in Hle. congruence.
  - intros H. destruct (Qle_bool y x) eqn:E; [|done].
    apply Qle_bool_iff in E. exfalso. by apply (Qlt_not_le x y).
Qed.

Lemma Qlt_bool_false (x y : Q) : Qlt_bool x y = false ↔ (y <= x)%Q.
Proof.
  unfold Qlt_bool. rewrite negb_false_iff. apply Qle_bool_iff.
Qed.

(** ** Column lookups and the error monad *)

Section Require.
Context {R : Type}.
Implicit Types (df : Frame R) (c : string).

Lemma require_one c df :
  require [c] df =
    if decide (c ∈ columns df) then Ok tt else Raise (KeyError [c]).
Proof.
  unfold require. rewrite filter_cons, filter_nil.
  destruct (decide (c ∈ columns df)) as [Hin|Hout].
  - by rewrite decide_False by (intros Hn; by apply Hn).
  - by rewrite decide_True.
Qed.

Lemma require_one_ok c df : c ∈ columns df → require [c] df = Ok tt.
Proof. intros H. by rewrite require_one, decide_True. Qed.


Lemma require_Ok_inv cs df : require cs df = Ok tt → ∀ c, c ∈ cs → c ∈ columns df.
Proof.
  unfold require. intros H c Hc.
  destruct (filter (λ c, c ∉ columns df) cs) as [|m ms] eqn:E; [|done].
  destruct (decide (c ∈ columns df)) as [|Hout]; [done|].
  assert (c ∈ filter (λ c, c ∉ columns df) cs) as Hf
    by (by apply list_elem_of_filter).
  rewrite E in Hf. by apply elem_of_nil in Hf.
Qed.

Lemma require_all_ok cs df :
  (∀ c, c ∈ cs → c ∈ columns df) → require cs df = Ok tt.
Proof.
  intros H. unfold require.
  rewrite (elem_of_nil_inv (filter (λ c, c ∉ columns df) cs)); [done|].
  intros c [Hc Hin]%list_elem_of_filter. by apply Hc, H.
Qed.

End Require.

Lemma rbind_Ok_inv {A B} (m : result A) (f : A → result B) (y : B) :
  rbind m f = Ok y → ∃ x, m = Ok x ∧ f x = Ok y.
Proof. destruct m as [e|x]; [done|]. intros H. by exists x. Qed.

(** ** Lists and Series *)

Section Lists.
Context {A : Type} `{!EqDecision A}.
Implicit Types (l : list A) (x z : A).

Lemma remove_dups_const l z :
  l ≠ [] → (∀ x, x ∈ l → x = z) → remove_dups l = [z].
Proof.
  induction l as [|x l IH]; [done|]. intros _ Hall.
  assert (x = z) as -> by (apply Hall; left).
  destruct l as [|y l'].
  - cbn [remove_dups].
    by destruct (decide_rel elem_of z []) as [Hn%elem_of_nil|_].
  - assert (y = z) as -> by (apply Hall; right; left).
    cbn [remove_dups].
    destruct (decide_rel elem_of z (z :: l')) as [_|Hn]; [|destruct Hn; left].
    apply IH; [done|]. intros x Hx. apply Hall. by right.
Qed.


Lemma filter_label_unique {B} (f : B → A) (l : list B) (y : B) :
  NoDup (f <$> l) → y ∈ l → filter (λ b, f b = f y) l = [y].
Proof.
  induction l as [|b l IH]; intros Hnd Hy; [by apply elem_of_nil in Hy|].
  rewrite fmap_cons in Hnd. apply NoDup_cons in Hnd as [Hb Hnd].
  rewrite filter_cons. apply elem_of_cons in Hy as [->|Hy].
  - rewrite decide_True by done. f_equal.
    apply elem_of_nil_inv. intros b' [Hb' Hin]%list_elem_of_filter.
    apply Hb. rewrite <- Hb'. apply list_elem_of_fmap. by exists b'.
  - rewrite decide_False; [by apply IH|].
    intros Hfb. apply Hb. rewrite Hfb. apply list_elem_of_fmap. by exists y.
Qed.
End Lists.

Section Series.
Context {K V : Type} `{!EqDecision K}.
Implicit Types (s : list (K * V)) (k : K).

Lemma filter_key_tabulate (f : K → V) (ks : list K) k :
  NoDup ks →
  filter (λ kv, kv.1 = k) ((λ k', (k', f k')) <$> ks) =
    if decide (k ∈ ks) then [(k, f k)] else [].
Proof.
  induction ks as [|k' ks IH]; intros Hnd; [done|].
  apply NoDup_cons in Hnd as [Hk' Hnd].
  rewrite fmap_cons, filter_cons. cbn [fst]. rewrite (IH Hnd).
  destruct (decide (k' = k)) as [->|Hne].
  - rewrite (decide_False (P := k ∈ ks)) by done.
    by rewrite decide_True by left.
  - destruct (decide (k ∈ ks)) as [Hin|Hout].
    + by rewrite decide_True by (by right).
    + rewrite decide_False; [done|].
      intros [?|?]%elem_of_cons; [congruence|done].
Qed.

Lemma filter_key_absent s k : k ∉ s.*1 → filter (λ kv, kv.1 = k) s = [].
Proof.
  intros Hk. apply elem_of_nil_inv.
  intros kv [Hkv Hin]%list_elem_of_filter.
  apply Hk. apply list_elem_of_fmap. by exists kv.
Qed.

(** Matching a nullable left key against the right index *)
Lemma filter_key_option s k :
  filter (λ kv, Some k = Some kv.1) s = filter (λ kv, kv.1 = k) s.
Proof. apply list_filter_iff. intros kv. split; [by intros [= ->]|by intros ->]. Qed.

Lemma filter_key_null s (ko : option K) :
  ko = None → filter (λ kv, ko = Some kv.1) s = [].
Proof.
  intros ->. apply elem_of_nil_inv. by intros kv [? _]%list_elem_of_filter.
Qed.
End Series.

(** ** The partition of the join table (lines 27-34) *)

Section Labels.
Context {L : Type} `{!EqDecision L}.
Implicit Types (vs : list (option L)) (z : L).

Lemma elem_of_valid vs z : z ∈ omap id vs ↔ Some z ∈ vs.
Proof.
  rewrite list_elem_of_omap. split.
  - intros (v & Hv & Hid). unfold id in Hid. by subst v.
  - intros Hz. by exists (Some z).
Qed.

Lemma nunique_pos_inv vs : 0 < nunique vs → ∃ z, Some z ∈ vs.
Proof.
  unfold nunique. destruct (remove_dups (omap id vs)) as [|z l] eqn:E.
  - simpl. lia.
  - intros _. exists z. apply elem_of_valid, elem_of_remove_dups.
    rewrite E. left.
Qed.

Lemma nunique_one vs z :
  Some z ∈ vs → (∀ v, v ∈ vs → v = None ∨ v = Some z) → nunique vs = 1.
Proof.
  intros Hz Hall. unfold nunique.
  rewrite (remove_dups_const _ z); [done| |].
  - apply elem_of_valid in Hz. intros E. rewrite E in Hz.
    by apply elem_of_nil in Hz.
  - intros x Hx%elem_of_valid. destruct (Hall _ Hx); congruence.
Qed.


Lemma last_valid_nil : last_valid (@nil (option L)) = None.
Proof. done. Qed.

Lemma last_valid_one vs z :
  Some z ∈ vs → (∀ v, v ∈ vs → v = None ∨ v = Some z) → last_valid vs = Some z.
Proof.
  intros Hz Hall. unfold last_valid.
  destruct (last (filter is_Some vs)) as [v|] eqn:E.
  - apply last_Some_elem_of, list_elem_of_filter in E as [[y Hy] Hin].
    subst v. destruct (Hall _ Hin) as [?|Hv]; [done|]. by rewrite Hv.
  - apply last_None in E.
    assert (Some z ∈ filter is_Some vs) as Hf
      by (apply list_elem_of_filter; eauto).
    rewrite E in Hf. by apply elem_of_nil in Hf.
Qed.

(** The value kept for a group is one of its values. *)
Lemma last_valid_elem_of vs z : last_valid vs = Some z → Some z ∈ vs.
Proof.
  unfold last_valid. destruct (last (filter is_Some vs)) as [v|] eqn:E; [|done].
  simpl. intros ->.
  by apply last_Some_elem_of, list_elem_of_filter in E as [_ ?].
Qed.

Lemma last_valid_singleton (v : option L) : last_valid [v] = v.
Proof. by destruct v. Qed.
End Labels.

Section Partition.
Context {K L Geom : Type} `{!EqDecision K, !EqDecision L}.
Implicit Types (J : list (JoinRow K L Geom)) (k : K) (v : option L).

Lemma elem_of_zone_group J k v :
  v ∈ zone_group J k ↔ ∃ j, j ∈ J ∧ j_apn j = Some k ∧ j_zone j = v.
Proof.
  unfold zone_group. rewrite list_elem_of_fmap. split.
  - intros (j & -> & [Hk Hj]%list_elem_of_filter). eauto.
  - intros (j & Hj & Hk & <-). exists j. split; [done|].
    by apply list_elem_of_filter.
Qed.

Lemma elem_of_zones_per_apn J k n :
  (k, n) ∈ zones_per_apn J ↔
    (∃ j, j ∈ J ∧ j_apn j = Some k) ∧ n = nunique (zone_group J k).
Proof.
  unfold zones_per_apn. rewrite list_elem_of_fmap. split.
  - intros (k' & [= -> ->] & Hk%elem_of_remove_dups%list_elem_of_omap).
    split; [|done]. destruct Hk as (j & ? & ?). eauto.
  - intros [(j & Hj & Hk) ->]. exists k. split; [done|].
    apply elem_of_remove_dups, list_elem_of_omap. eauto.
Qed.

Lemma nunique_group_pos J k :
  0 < nunique (zone_group J k) → ∃ j, j ∈ J ∧ j_apn j = Some k.
Proof.
  intros (z & (j & ? & ? & _)%elem_of_zone_group)%nunique_pos_inv. eauto.
Qed.

Lemma elem_of_single_ids J k :
  k ∈ single_ids J ↔ nunique (zone_group J k) = 1.
Proof.
  unfold single_ids. rewrite list_elem_of_fmap. split.
  - intros ([k' n] & -> & [Hn Hin]%list_elem_of_filter).
    apply elem_of_zones_per_apn in Hin as [_ ->]. done.
  - intros Hn. exists (k, 1). split; [done|].
    apply list_elem_of_filter. split; [done|].
    apply elem_of_zones_per_apn. split; [|done].
    apply nunique_group_pos. lia.
Qed.

Lemma elem_of_dup_ids J k :
  k ∈ dup_ids J ↔ 1 < nunique (zone_group J k).
Proof.
  unfold dup_ids. rewrite list_elem_of_fmap. split.
  - intros ([k' n] & -> & [Hn Hin]%list_elem_of_filter).
    apply elem_of_zones_per_apn in Hin as [_ ->]. done.
  - intros Hn. exists (k, nunique (zone_group J k)). split; [done|].
    apply list_elem_of_filter. split; [done|].
    apply elem_of_zones_per_apn. split; [|done].
    apply nunique_group_pos. lia.
Qed.

(** No identifier is both unambiguous and ambiguous. *)
Lemma single_dup_disjoint J k : k ∈ single_ids J → k ∉ dup_ids J.
Proof. rewrite elem_of_single_ids, elem_of_dup_ids. lia. Qed.


(** The entries of [single_map] under one key are the group of the key. *)
Lemma single_map_group J k :
  (filter (λ kv, kv.1 = k) (single_map J)).*2 =
    if decide (k ∈ single_ids J) then zone_group J k else [].
Proof.
  unfold single_map, zone_group. generalize (single_ids J) as ids. intros ids.
  induction J as [|r J IH]; [by destruct (decide (k ∈ ids))|].
  rewrite (filter_cons (λ r, j_apn r = Some k)).
  cbn [omap list_omap]. fold (@omap list _).
  destruct (j_apn r) as [k'|] eqn:Ek; cbn [mbind option_bind].
  - destruct (decide (k' ∈ ids)) as [Hin|Hout].
    + rewrite filter_cons. cbn [fst].
      destruct (decide (k' = k)) as [->|Hne].
      * rewrite (decide_True (P := Some k = Some k)) by done.
        rewrite !fmap_cons. cbn [snd].
        rewrite decide_True in IH |- * by done. f_equal. exact IH.
      * rewrite (decide_False (P := Some k' = Some k)) by congruence.
        exact IH.
    + destruct (decide (k ∈ ids)) as [Hk|Hk].
      * rewrite decide_False by congruence. exact IH.
      * exact IH.
  - rewrite (decide_False (P := None = Some k)) by done. exact IH.
Qed.
End Partition.

(** ** The overlay and the area filter (lines 39-56) *)

Section Overlay.
Context {K L Geom CRS : Type} `{!EqDecision K, !EqDecision L}.
Variable G : GeoOps Geom CRS.
Implicit Types (dfa : list (K * Geom)) (dfb : list (option L * Geom)).
Implicit Types (r : OvRow K L Geom) (ra : OvRow K L Geom * Q) (c : CRS).

Lemma elem_of_dup_parcels (P : list (ParcelRow K Geom))
    (J : list (JoinRow K L Geom)) (kg : K * Geom) :
  kg ∈ dup_parcels P J ↔
    ∃ p, p ∈ P ∧ p_apn p = Some kg.1 ∧ p_geom p = kg.2 ∧ kg.1 ∈ dup_ids J.
Proof.
  unfold dup_parcels. rewrite list_elem_of_omap. split.
  - intros (p & Hp & Hsel). exists p.
    destruct (p_apn p) as [k|]; [|done]. cbn in Hsel.
    destruct (decide (k ∈ dup_ids J)); [|done].
    injection Hsel as <-. done.
  - intros (p & Hp & Hk & Hg & Hin). exists p. split; [done|].
    rewrite Hk. cbn. rewrite decide_True by done.
    destruct kg; cbn in *; by subst.
Qed.

Lemma elem_of_overlay_pairs dfa dfb (t : K * option L * Geom) :
  t ∈ overlay_pairs G dfa dfb ↔
    ∃ p z, p ∈ dfa ∧ z ∈ dfb ∧ intersects G p.2 z.2 = true ∧
           t = (p.1, z.1, intersection G p.2 z.2).
Proof.
  unfold overlay_pairs. rewrite list_elem_of_bind. split.
  - intros (p & (z & Hz & Hsel)%list_elem_of_omap & Hp).
    exists p, z. destruct (intersects G p.2 z.2); [|done].
    injection Hsel as <-. done.
  - intros (p & z & Hp & Hz & Hi & ->). exists p. split; [|done].
    apply list_elem_of_omap. exists z. by rewrite Hi.
Qed.

Lemma overlay_lookup dfa dfb i r :
  overlay G dfa dfb !! i = Some r →
  ∃ t, overlay_pairs G dfa dfb !! i = Some t ∧ r = mkOv i t.1.1 t.1.2 t.2.
Proof.
  unfold overlay. rewrite list_lookup_imap.
  destruct (overlay_pairs G dfa dfb !! i) as [t|]; [|done].
  intros [= <-]. by exists t.
Qed.

(** The labels of the overlay are its positions. *)
Lemma overlay_idx_NoDup dfa dfb : NoDup (o_idx <$> overlay G dfa dfb).
Proof.
  apply NoDup_alt. intros i j n. rewrite !list_lookup_fmap.
  intros (r & Hr & ->)%fmap_Some (r' & Hr' & Hn)%fmap_Some.
  apply overlay_lookup in Hr as (t & _ & ->).
  apply overlay_lookup in Hr' as (t' & _ & ->). done.
Qed.

Lemma elem_of_overlay dfa dfb r :
  r ∈ overlay G dfa dfb →
  ∃ p z, p ∈ dfa ∧ z ∈ dfb ∧ intersects G p.2 z.2 = true ∧
         o_apn r = p.1 ∧ o_zone r = z.1 ∧
         o_geom r = intersection G p.2 z.2.
Proof.
  intros [i Hi]%list_elem_of_lookup.
  apply overlay_lookup in Hi as (t & Ht & ->).
  assert (t ∈ overlay_pairs G dfa dfb) as Hin
    by (apply list_elem_of_lookup; eauto).
  apply elem_of_overlay_pairs in Hin as (p & z & ? & ? & ? & ->).
  by exists p, z.
Qed.

Lemma overlay_intersecting dfa dfb (p : K * Geom) (z : option L * Geom) :
  p ∈ dfa → z ∈ dfb → intersects G p.2 z.2 = true →
  ∃ i, mkOv i p.1 z.1 (intersection G p.2 z.2) ∈ overlay G dfa dfb.
Proof.
  intros Hp Hz Hi.
  assert ((p.1, z.1, intersection G p.2 z.2) ∈ overlay_pairs G dfa dfb)
    as [i Hl]%list_elem_of_lookup
    by (apply elem_of_overlay_pairs; by exists p, z).
  exists i. unfold overlay. apply elem_of_lookup_imap.
  by exists i, (p.1, z.1, intersection G p.2 z.2).
Qed.

Lemma elem_of_poly_area c (ov : list (OvRow K L Geom)) ra :
  ra ∈ poly_area G c ov ↔
    ∃ r, r ∈ ov ∧ ra = (to_crs_row G c r, area G (to_crs G c (o_geom r))) ∧
         (0 < ra.2)%Q.
Proof.
  unfold poly_area, ovr_area.
  rewrite list_elem_of_filter, list_elem_of_fmap, Qlt_bool_iff. split.
  - intros [Hpos (r & -> & Hr)]. by exists r.
  - intros (r & Hr & -> & Hpos). split; [done|]. by exists r.
Qed.

Lemma poly_area_idx_NoDup c (ov : list (OvRow K L Geom)) :
  NoDup (o_idx <$> ov) → NoDup ((λ ra, o_idx ra.1) <$> poly_area G c ov).
Proof.
  intros Hnd. eapply sublist_NoDup; [exact Hnd|].
  unfold poly_area.
  trans ((λ ra : OvRow K L Geom * Q, o_idx ra.1) <$> ovr_area G c ov).
  - apply fmap_sublist, sublist_filter.
  - unfold ovr_area. rewrite <- list_fmap_compose. done.
Qed.
End Overlay.

(** ** The largest overlap of each parcel (lines 61-64) *)

Section Argmax.
Context {K L Geom : Type} `{!EqDecision K}.
Implicit Types (ra best w : OvRow K L Geom * Q) (k : K).
Implicit Types (g pa : list (OvRow K L Geom * Q)).

Lemma argmax_from_elem best g : argmax_from best g ∈ best :: g.
Proof.
  revert best. induction g as [|ra g IH]; intros best; [left|].
  cbn [argmax_from]. destruct (Qlt_bool best.2 ra.2).
  - right. apply IH.
  - pose proof (IH best) as [->|Hin]%elem_of_cons; [left|by do 2 right].
Qed.

Lemma argmax_from_max best g ra :
  ra ∈ best :: g → (ra.2 <= (argmax_from best g).2)%Q.
Proof.
  revert best ra. induction g as [|x g IH]; intros best ra Hin.
  - apply list_elem_of_singleton in Hin as ->. apply Qle_refl.
  - cbn [argmax_from]. destruct (Qlt_bool best.2 x.2) eqn:E.
    + apply Qlt_bool_iff in E.
      apply elem_of_cons in Hin as [->|Hin]; [|by apply IH].
      apply Qle_trans with x.2; [by apply Qlt_le_weak|]. apply IH. left.
    + apply Qlt_bool_false in E.
      apply elem_of_cons in Hin as [->|[->|Hin]%elem_of_cons].
      * apply IH. left.
      * apply Qle_trans with best.2; [done|]. apply IH. left.
      * apply IH. by right.
Qed.

Lemma argmax_from_keep best g :
  (∀ ra, ra ∈ g → (ra.2 <= best.2)%Q) → argmax_from best g = best.
Proof.
  induction g as [|x g IH]; intros Hle; [done|]. cbn [argmax_from].
  rewrite (proj2 (Qlt_bool_false best.2 x.2)) by (apply Hle; left).
  apply IH. intros ra Hra. apply Hle. by right.
Qed.

(** The first record of maximal area wins. *)
Lemma argmax_from_first best l1 w l2 :
  (∀ ra, ra ∈ best :: l1 → (ra.2 < w.2)%Q) →
  (∀ ra, ra ∈ l2 → (ra.2 <= w.2)%Q) →
  argmax_from best (l1 ++ w :: l2) = w.
Proof.
  intros Hlt Hle. revert best Hlt.
  induction l1 as [|x l1 IH]; intros best Hlt; cbn [app argmax_from].
  - rewrite (proj2 (Qlt_bool_iff best.2 w.2)) by (apply Hlt; left).
    by apply argmax_from_keep.
  - destruct (Qlt_bool best.2 x.2); apply IH; intros ra Hra; apply Hlt.
    + by right.
    + apply elem_of_cons in Hra as [->|Hra]; [left|by do 2 right].
Qed.

Lemma elem_of_area_group pa k ra :
  ra ∈ area_group pa k ↔ ra ∈ pa ∧ o_apn ra.1 = k.
Proof. unfold area_group. rewrite list_elem_of_filter. tauto. Qed.

Lemma winner_of_Some pa k w :
  winner_of pa k = Some w →
  w ∈ pa ∧ o_apn w.1 = k ∧
  ∀ ra, ra ∈ pa → o_apn ra.1 = k → (ra.2 <= w.2)%Q.
Proof.
  unfold winner_of. destruct (area_group pa k) as [|b g] eqn:E; [done|].
  intros [= <-].
  pose proof (argmax_from_elem b g) as Hin. rewrite <- E in Hin.
  apply elem_of_area_group in Hin as [Hin Hk]. split_and!; [done..|].
  intros ra Hra Hkra. apply argmax_from_max. rewrite <- E.
  by apply elem_of_area_group.
Qed.

Lemma winner_of_None pa k :
  winner_of pa k = None ↔ ∀ ra, ra ∈ pa → o_apn ra.1 ≠ k.
Proof.
  unfold winner_of. split.
  - destruct (area_group pa k) as [|b g] eqn:E; [|done].
    intros _ ra Hra Hk.
    assert (ra ∈ area_group pa k) as Hin by (by apply elem_of_area_group).
    rewrite E in Hin. by apply elem_of_nil in Hin.
  - intros Hno. destruct (area_group pa k) as [|b g] eqn:E; [done|].
    assert (b ∈ area_group pa k) as [Hb Hk]%elem_of_area_group
      by (rewrite E; left).
    by destruct (Hno b).
Qed.


Lemma winner_of_first pa k l1 w l2 :
  area_group pa k = l1 ++ w :: l2 →
  (∀ ra, ra ∈ l1 → (ra.2 < w.2)%Q) →
  (∀ ra, ra ∈ l2 → (ra.2 <= w.2)%Q) →
  winner_of pa k = Some w.
Proof.
  intros E Hlt Hle. unfold winner_of. rewrite E.
  destruct l1 as [|b l1]; cbn [app]; f_equal.
  - by apply argmax_from_keep.
  - by apply argmax_from_first.
Qed.

(** [.loc] on the labels of [idxmax] returns the records [idxmax] chose. *)
Lemma loc_idxmax pa (ks : list K) :
  NoDup ((λ ra, o_idx ra.1) <$> pa) →
  loc pa (omap (λ k, idxmax (area_group pa k)) ks) = omap (winner_of pa) ks.
Proof.
  intros Hnd. unfold loc.
  induction ks as [|k ks IH]; [done|].
  cbn [omap list_omap]. fold (@omap list _). unfold winner_of at 1, idxmax at 1.
  destruct (area_group pa k) as [|b g] eqn:E; [exact IH|].
  pose proof (argmax_from_elem b g) as Hin. rewrite <- E in Hin.
  apply elem_of_area_group in Hin as [Hin _].
  cbn [mbind list_bind]. fold (@mbind list _).
  rewrite (filter_label_unique (λ ra : OvRow K L Geom * Q, o_idx ra.1)) by done.
  cbn [app]. f_equal. exact IH.
Qed.

Lemma multi_map_of_eq pa :
  NoDup ((λ ra, o_idx ra.1) <$> pa) →
  multi_map_of pa =
    (λ ra, (o_apn ra.1, o_zone ra.1))
      <$> omap (winner_of pa) (remove_dups ((λ ra, o_apn ra.1) <$> pa)).
Proof. intros Hnd. unfold multi_map_of, idxmax_per_apn. by rewrite loc_idxmax. Qed.

Lemma filter_key_winners pa (ks : list K) k :
  NoDup ks →
  filter (λ kv, kv.1 = k)
    ((λ ra, (o_apn ra.1, o_zone ra.1)) <$> omap (winner_of pa) ks) =
    if decide (k ∈ ks)
    then match winner_of pa k with
         | Some w => [(k, o_zone w.1)]
         | None => []
         end
    else [].
Proof.
  induction ks as [|k' ks IH]; intros Hnd; [done|].
  apply NoDup_cons in Hnd as [Hk' Hnd]. specialize (IH Hnd).
  cbn [omap list_omap]. fold (@omap list _).
  destruct (decide (k' = k)) as [->|Hne].
  - rewrite decide_False in IH by done.
    rewrite (decide_True (P := k ∈ k :: ks)) by left.
    destruct (winner_of pa k) as [w|] eqn:E; [|exact IH].
    apply winner_of_Some in E as (_ & Hk & _).
    rewrite fmap_cons, filter_cons. cbn [fst].
    rewrite decide_True by done. rewrite Hk. f_equal. exact IH.
  - assert (filter (λ kv : K * option L, kv.1 = k)
              ((λ ra, (o_apn ra.1, o_zone ra.1)) <$> omap (winner_of pa) ks) =
            if decide (k ∈ k' :: ks)
            then match winner_of pa k with
                 | Some w => [(k, o_zone w.1)]
                 | None => []
                 end
            else []) as IH'.
    { rewrite IH. destruct (decide (k ∈ ks)) as [Hin|Hout].
      - by rewrite decide_True by (by right).
      - rewrite decide_False; [done|].
        intros [?|?]%elem_of_cons; [congruence|done]. }
    destruct (winner_of pa k') as [w|] eqn:E; [|exact IH'].
    apply winner_of_Some in E as (_ & Hk & _).
    rewrite fmap_cons, filter_cons. cbn [fst].
    rewrite decide_False by congruence. exact IH'.
Qed.

(** [multi_map] has one entry for each parcel with a positive-area record:
    the zone of the record [idxmax] chose. *)
Lemma multi_map_of_group pa k :
  NoDup ((λ ra, o_idx ra.1) <$> pa) →
  filter (λ kv, kv.1 = k) (multi_map_of pa) =
    match winner_of pa k with
    | Some w => [(k, o_zone w.1)]
    | None => []
    end.
Proof.
  intros Hnd. rewrite multi_map_of_eq by done.
  rewrite filter_key_winners by apply NoDup_remove_dups.
  destruct (decide (k ∈ remove_dups ((λ ra, o_apn ra.1) <$> pa)))
    as [Hin|Hout]; [done|].
  rewrite (proj2 (winner_of_None pa k)); [done|].
  intros ra Hra Hk. apply Hout, elem_of_remove_dups, list_elem_of_fmap.
  by exists ra.
Qed.
End Argmax.

(** ** The combination and the left merge (lines 68-73) *)

Section Merge.
Context {K L Geom : Type} `{!EqDecision K, !EqDecision L}.
Implicit Types (s : list (K * option L)) (k : K).
Implicit Types (P : list (ParcelRow K Geom)).

(** The index of [final_map] has no duplicate. *)
Lemma groupby_last_keys_NoDup s : NoDup (groupby_last s).*1.
Proof.
  unfold groupby_last. rewrite <- list_fmap_compose.
  rewrite (list_fmap_ext _ id) by done. rewrite list_fmap_id.
  apply NoDup_remove_dups.
Qed.

Lemma groupby_last_group s k :
  filter (λ kv, kv.1 = k) (groupby_last s) =
    if decide (k ∈ s.*1)
    then [(k, last_valid (filter (λ kv, kv.1 = k) s).*2)]
    else [].
Proof.
  unfold groupby_last.
  rewrite (filter_key_tabulate
             (λ k', last_valid (filter (λ kv : K * option L, kv.1 = k') s).*2))
    by apply NoDup_remove_dups.
  destruct (decide (k ∈ s.*1)) as [Hin|Hout].
  - by rewrite decide_True by (by apply elem_of_remove_dups).
  - by rewrite decide_False by (by rewrite elem_of_remove_dups).
Qed.

(** Against an index without duplicates the left merge is a lookup: one
    output row for each parcel row, in order. *)
Lemma merge_left_groupby_last P s :
  merge_left P (groupby_last s) =
    (λ r, (r, final_label s (p_apn r))) <$> P.
Proof.
  unfold merge_left. induction P as [|r P IH]; [done|].
  cbn [mbind list_bind]. fold (@mbind list _).
  rewrite fmap_cons, <- IH. clear IH.
  refine (f_equal (λ h, h ++ _) (_ : _ = [(r, final_label s (p_apn r))])).
  destruct (p_apn r) as [k|]; cbn [final_label].
  - rewrite filter_key_option, groupby_last_group.
    destruct (decide (k ∈ s.*1)) as [Hin|Hout]; [done|].
    by rewrite filter_key_absent.
  - by rewrite (filter_key_null _ None).
Qed.

Lemma final_label_app s1 s2 k :
  final_label (s1 ++ s2) (Some k) =
    last_valid ((filter (λ kv, kv.1 = k) s1).*2 ++
                (filter (λ kv, kv.1 = k) s2).*2).
Proof. cbn [final_label]. by rewrite filter_app, fmap_app. Qed.
End Merge.

(** ** The function as a whole *)

Section Whole.
Context {K L Geom CRS : Type} `{!EqDecision K, !EqDecision L}.
Variable G : GeoOps Geom CRS.
Variable estimate_utm_crs : Frame (ParcelRow K Geom) → option CRS.
Implicit Types (parcels : Frame (ParcelRow K Geom)).
Implicit Types (zones : Frame (ZoneRow L Geom)).
Implicit Types (joined_gdf : Frame (JoinRow K L Geom)).
Implicit Types (J : list (JoinRow K L Geom)) (k : K) (c : CRS).
Implicit Types (mm : list (K * option L)) (apn zone zone_out : string).

Lemma dup_records_idx_NoDup c (P : list (ParcelRow K Geom))
    (Z : list (ZoneRow L Geom)) J :
  NoDup ((λ ra, o_idx ra.1) <$> dup_records G c P Z J).
Proof. apply poly_area_idx_NoDup, overlay_idx_NoDup. Qed.

(** A positive-area record joins a parcel row of an ambiguous identifier
    with a zone row that intersects it. *)
Lemma elem_of_dup_records c (P : list (ParcelRow K Geom))
    (Z : list (ZoneRow L Geom)) J (ra : OvRow K L Geom * Q) :
  ra ∈ dup_records G c P Z J →
  ∃ p z, p ∈ P ∧ z ∈ Z ∧ p_apn p = Some (o_apn ra.1) ∧
         o_apn ra.1 ∈ dup_ids J ∧ o_zone ra.1 = z_zone z ∧
         intersects G (p_geom p) (z_geom z) = true ∧
         ra.2 = area G (to_crs G c (intersection G (p_geom p) (z_geom z))) ∧
         (0 < ra.2)%Q.
Proof.
  intros (r & Hr & -> & Hpos)%elem_of_poly_area.
  apply elem_of_overlay in Hr as (kg & lz & Hkg & Hlz & Hi & Hk & Hl & Hg).
  apply elem_of_dup_parcels in Hkg as (p & Hp & Hpk & Hpg & Hdup).
  apply list_elem_of_fmap in Hlz as (z & -> & Hz).
  exists p, z. cbn in *. rewrite Hk, Hl, Hg, Hpg. split_and!; try done.
  by rewrite <- Hg.
Qed.

(** Conversely, every such pair of positive area has its record. *)
Lemma dup_records_intro c (P : list (ParcelRow K Geom))
    (Z : list (ZoneRow L Geom)) J (p : ParcelRow K Geom) (z : ZoneRow L Geom) k :
  p ∈ P → z ∈ Z → p_apn p = Some k → k ∈ dup_ids J →
  intersects G (p_geom p) (z_geom z) = true →
  (0 < area G (to_crs G c (intersection G (p_geom p) (z_geom z))))%Q →
  ∃ ra, ra ∈ dup_records G c P Z J ∧ o_apn ra.1 = k ∧
        o_zone ra.1 = z_zone z ∧
        ra.2 = area G (to_crs G c (intersection G (p_geom p) (z_geom z))).
Proof.
  intros Hp Hz Hk Hdup Hi Hpos.
  destruct (overlay_intersecting G (dup_parcels P J) (zone_cols Z)
              (k, p_geom p) (z_zone z, z_geom z)) as [i Hin].
  - apply elem_of_dup_parcels. by exists p.
  - apply list_elem_of_fmap. by exists z.
  - done.
  - eexists. split; [|split_and!].
    + apply elem_of_poly_area. eexists. split; [exact Hin|]. split; [done|].
      exact Hpos.
    + done.
    + done.
    + done.
Qed.

Lemma resolve_dups_Ok_inv parcels zones J apn zone mm :
  resolve_dups G estimate_utm_crs parcels zones J apn zone = Ok mm →
  ∃ c, estimate_utm_crs parcels = Some c ∧
       mm = multi_map_of (dup_records G c (rows parcels) (rows zones) J).
Proof.
  unfold resolve_dups.
  intros (_ & _ & (_ & _ & (_ & _ & H)%rbind_Ok_inv)%rbind_Ok_inv)%rbind_Ok_inv.
  destruct (estimate_utm_crs parcels) as [c|]; [|done].
  exists c. split; [done|]. fold (dup_records G c (rows parcels) (rows zones) J) in H.
  destruct (decide (dup_records G c (rows parcels) (rows zones) J ≠ []))
    as [Hne|He]; injection H as <-; [done|].
  apply dec_stable in He. by rewrite He.
Qed.

Lemma multi_map_Ok_inv parcels zones J apn zone mm :
  multi_map G estimate_utm_crs parcels zones J apn zone = Ok mm →
  (dup_ids J = [] ∧ mm = []) ∨
  (dup_ids J ≠ [] ∧
   ∃ c, estimate_utm_crs parcels = Some c ∧
        mm = multi_map_of (dup_records G c (rows parcels) (rows zones) J)).
Proof.
  unfold multi_map. destruct (decide (0 < length (dup_ids J))) as [Hpos|Hz].
  - intros H%resolve_dups_Ok_inv. right. split; [|done].
    intros E. rewrite E in Hpos. simpl in Hpos. lia.
  - intros [= <-]. left. split; [|done].
    destruct (dup_ids J); [done|]. simpl in Hz. lia.
Qed.

(** The entries of [multi_map] under one key *)
Lemma multi_map_group parcels zones J apn zone mm k :
  multi_map G estimate_utm_crs parcels zones J apn zone = Ok mm →
  filter (λ kv, kv.1 = k) mm = [] ∨
  ∃ c w, estimate_utm_crs parcels = Some c ∧
         winner_of (dup_records G c (rows parcels) (rows zones) J) k = Some w ∧
         filter (λ kv, kv.1 = k) mm = [(k, o_zone w.1)].
Proof.
  intros [[_ ->]|(_ & c & Hc & ->)]%multi_map_Ok_inv; [by left|].
  rewrite multi_map_of_group by apply dup_records_idx_NoDup.
  destruct (winner_of _ k) as [w|] eqn:E; [|by left].
  right. by exists c, w.
Qed.

(** [multi_map] has entries for ambiguous identifiers only. *)
Lemma multi_map_no_entry parcels zones J apn zone mm k :
  multi_map G estimate_utm_crs parcels zones J apn zone = Ok mm →
  k ∉ dup_ids J → filter (λ kv, kv.1 = k) mm = [].
Proof.
  intros Hmm Hk.
  destruct (multi_map_group _ _ _ _ _ _ k Hmm)
    as [?|(c & w & _ & Hw & _)]; [done|].
  apply winner_of_Some in Hw as (Hin & Hkw & _).
  apply elem_of_dup_records in Hin as (_ & _ & _ & _ & _ & Hdup & _).
  by rewrite Hkw in Hdup.
Qed.

Lemma overlap_Ok_inv parcels zones joined_gdf apn zone zone_out out :
  overlap G estimate_utm_crs parcels zones joined_gdf apn zone zone_out
    = Ok out →
  apn ∈ columns joined_gdf ∧ zone ∈ columns joined_gdf ∧
  apn ∈ columns parcels ∧
  ∃ mm, multi_map G estimate_utm_crs parcels zones (rows joined_gdf) apn zone
          = Ok mm ∧
        out = mkFrame (merge_columns (columns parcels) zone_out)
                ((λ r, (r, final_label (single_map (rows joined_gdf) ++ mm)
                              (p_apn r))) <$> rows parcels).
Proof.
  unfold overlap.
  intros ([] & H1 & ([] & H2 & (mm & Hmm & ([] & H3 & H)%rbind_Ok_inv)
    %rbind_Ok_inv)%rbind_Ok_inv)%rbind_Ok_inv.
  split_and!.
  - apply (require_Ok_inv _ _ H1). left.
  - apply (require_Ok_inv _ _ H2). left.
  - apply (require_Ok_inv _ _ H3). left.
  - exists mm. split; [done|]. injection H as <-.
    by rewrite merge_left_groupby_last.
Qed.


(** The output has the rows of [parcels], each with the label the merge
    reads for it. *)
Lemma overlap_rows parcels zones joined_gdf apn zone zone_out out :
  overlap G estimate_utm_crs parcels zones joined_gdf apn zone zone_out
    = Ok out →
  ∃ mm, multi_map G estimate_utm_crs parcels zones (rows joined_gdf) apn zone
          = Ok mm ∧
        ∀ i r, rows parcels !! i = Some r →
               rows out !! i =
                 Some (r, final_label (single_map (rows joined_gdf) ++ mm)
                             (p_apn r)).
Proof.
  intros (_ & _ & _ & mm & Hmm & ->)%overlap_Ok_inv.
  exists mm. split; [done|]. intros i r Hr.
  cbn [rows]. by rewrite list_lookup_fmap, Hr.
Qed.

Lemma final_label_single parcels zones J apn zone mm k :
  multi_map G estimate_utm_crs parcels zones J apn zone = Ok mm →
  k ∈ single_ids J →
  final_label (single_map J ++ mm) (Some k) = last_valid (zone_group J k).
Proof.
  intros Hmm Hk. rewrite final_label_app, single_map_group.
  rewrite decide_True by done.
  rewrite (multi_map_no_entry _ _ _ _ _ _ k Hmm)
    by (by apply single_dup_disjoint).
  by rewrite app_nil_r.
Qed.


Lemma final_label_dup parcels zones J apn zone mm k c :
  multi_map G estimate_utm_crs parcels zones J apn zone = Ok mm →
  estimate_utm_crs parcels = Some c →
  k ∈ dup_ids J →
  final_label (single_map J ++ mm) (Some k) =
    w ← winner_of (dup_records G c (rows parcels) (rows zones) J) k;
    o_zone w.1.
Proof.
  intros Hmm Hc Hk. rewrite final_label_app, single_map_group.
  rewrite decide_False
    by (intros Hs; by apply (single_dup_disjoint J k)).
  apply multi_map_Ok_inv in Hmm as [[E _]|(_ & c' & Hc' & ->)].
  - rewrite E in Hk. by apply elem_of_nil in Hk.
  - assert (c' = c) as -> by congruence.
    rewrite multi_map_of_group by apply dup_records_idx_NoDup.
    destruct (winner_of _ k) as [w|]; [|done].
    cbn. apply last_valid_singleton.
Qed.

(** An entry of [multi_map] is the zone of a positive-area record of the
    parcel, and no positive-area record of the parcel is larger. *)
Lemma multi_map_entry parcels zones J apn zone mm k (l : option L) :
  multi_map G estimate_utm_crs parcels zones J apn zone = Ok mm →
  (k, l) ∈ mm →
  ∃ c w, estimate_utm_crs parcels = Some c ∧
         w ∈ dup_records G c (rows parcels) (rows zones) J ∧
         o_apn w.1 = k ∧ o_zone w.1 = l ∧
         ∀ ra, ra ∈ dup_records G c (rows parcels) (rows zones) J →
               o_apn ra.1 = k → (ra.2 <= w.2)%Q.
Proof.
  intros Hmm Hin.
  assert ((k, l) ∈ filter (λ kv : K * option L, kv.1 = k) mm) as Hf
    by (by apply list_elem_of_filter).
  destruct (multi_map_group _ _ _ _ _ _ k Hmm) as [E|(c & w & Hc & Hw & E)];
    rewrite E in Hf; [by apply elem_of_nil in Hf|].
  apply list_elem_of_singleton in Hf as [= ->].
  apply winner_of_Some in Hw as (Hwin & Hk & Hmax).
  by exists c, w.
Qed.
End Whole.

(** * The claims *)

Section Claims.
Context {K L Geom CRS : Type} `{!EqDecision K, !EqDecision L}.
Variable G : GeoOps Geom CRS.
Variable estimate_utm_crs : Frame (ParcelRow K Geom) → option CRS.
Implicit Types (parcels : Frame (ParcelRow K Geom)).
Implicit Types (zones : Frame (ZoneRow L Geom)).
Implicit Types (joined_gdf : Frame (JoinRow K L Geom)).
Implicit Types (out : Frame (ParcelRow K Geom * option L)).
Implicit Types (k : K) (c : CRS) (apn zone zone_out : string).

(** C1, as the code has it.  When neither the identifier column nor the
    zone-label column is named ["overlap_area"], a final label that is not
    null comes from one of two places: it is a label of a join record of the
    same parcel identifier, or the identifier is ambiguous and the label is
    that of a zone of the Zone collection whose intersection with a parcel
    row of that identifier has positive projected area.  The overlay runs
    against the whole Zone collection, so the second label need not occur in
    the join table. *)
Theorem final_label_origin parcels zones joined_gdf apn zone zone_out out
    (r : ParcelRow K Geom) (l : L) :
  overlap G estimate_utm_crs parcels zones joined_gdf apn zone zone_out
    = Ok out →
  apn ≠ "overlap_area" → zone ≠ "overlap_area" →
  (r, Some l) ∈ rows out →
  (∃ j, j ∈ rows joined_gdf ∧ j_apn j = p_apn r ∧ j_zone j = Some l) ∨
  (∃ k c p z,
      p_apn r = Some k ∧ k ∈ dup_ids (rows joined_gdf) ∧
      estimate_utm_crs parcels = Some c ∧
      p ∈ rows parcels ∧ p_apn p = Some k ∧
      z ∈ rows zones ∧ z_zone z = Some l ∧
      intersects G (p_geom p) (z_geom z) = true ∧
      (0 < area G (to_crs G c (intersection G (p_geom p) (z_geom z))))%Q).
Proof.
  intros (_ & _ & _ & mm & Hmm & ->)%overlap_Ok_inv _ _.
  cbn [rows]. intros (r' & [= <- Hl] & Hr)%list_elem_of_fmap.
  destruct (p_apn r) as [k|] eqn:Ek; [|done]. symmetry in Hl.
  rewrite final_label_app in Hl.
  apply last_valid_elem_of, elem_of_app in Hl as [Hs|Hm].
  - left. rewrite single_map_group in Hs.
    destruct (decide (k ∈ single_ids (rows joined_gdf)));
      [|by apply elem_of_nil in Hs].
    apply elem_of_zone_group in Hs as (j & ? & ? & ?). by exists j.
  - right. apply list_elem_of_fmap in Hm as ([k' l'] & Hl' & [Hk' Hin]%list_elem_of_filter).
    cbn in Hl', Hk'. subst k' l'.
    destruct (multi_map_entry _ _ _ _ _ _ _ _ _ _ Hmm Hin)
      as (c & w & Hc & Hw & Hk & Hz & _).
    apply elem_of_dup_records
      in Hw as (p & z & Hp & Hzin & Hpk & Hdup & Hzl & Hi & Ha & Hpos).
    exists k, c, p, z. rewrite Hk in Hpk, Hdup. rewrite Ha in Hpos.
    split_and!; try done. congruence.
Qed.


(** C3.  The output has exactly the rows of the Parcel collection, in
    order: none is dropped or duplicated, whatever the join records. *)
Theorem overlap_row_count parcels zones joined_gdf apn zone zone_out out :
  overlap G estimate_utm_crs parcels zones joined_gdf apn zone zone_out
    = Ok out →
  length (rows out) = length (rows parcels) ∧ (rows out).*1 = rows parcels.
Proof.
  intros (_ & _ & _ & mm & _ & ->)%overlap_Ok_inv. cbn [rows]. split.
  - apply length_fmap.
  - rewrite <- list_fmap_compose. apply list_fmap_id.
Qed.


(** C5.  Among the positive-area records of an ambiguous parcel, taken in
    the order of the overlay result, the first record of maximal area gives
    the final label: a later record of the same area does not replace it.
    The identifier and zone-label columns are not named ["overlap_area"],
    the column in which line 55 stores the areas. *)
Theorem tie_takes_first_record parcels zones joined_gdf apn zone zone_out
    out k c (l1 l2 : list (OvRow K L Geom * Q)) (w : OvRow K L Geom * Q) :
  overlap G estimate_utm_crs parcels zones joined_gdf apn zone zone_out
    = Ok out →
  apn ≠ "overlap_area" → zone ≠ "overlap_area" →
  estimate_utm_crs parcels = Some c →
  area_group
    (dup_records G c (rows parcels) (rows zones) (rows joined_gdf)) k
    = l1 ++ w :: l2 →
  (∀ ra, ra ∈ l1 → (ra.2 < w.2)%Q) →
  (∀ ra, ra ∈ l2 → (ra.2 <= w.2)%Q) →
  ∀ i r, rows parcels !! i = Some r → p_apn r = Some k →
         rows out !! i = Some (r, o_zone w.1).
Proof.
  intros Hout _ _ Hc Hg Hlt Hle i r Hr Hk.
  apply overlap_rows in Hout as (mm & Hmm & Hrows).
  rewrite (Hrows i r Hr), Hk. do 2 f_equal.
  assert (w ∈ area_group
            (dup_records G c (rows parcels) (rows zones) (rows joined_gdf)) k)
    as [Hw Hwk]%elem_of_area_group
    by (rewrite Hg; apply elem_of_app; right; left).
  apply elem_of_dup_records in Hw as (_ & _ & _ & _ & _ & Hdup & _).
  rewrite Hwk in Hdup.
  rewrite (final_label_dup _ _ _ _ _ _ _ _ _ c Hmm Hc Hdup).
  by rewrite (winner_of_first _ k l1 w l2).
Qed.

(** C6.  When some identifier is ambiguous and no CRS is found, [overlap]
    raises and returns nothing; with all the columns in place the error is
    the [ValueError] of line 51. *)
Theorem crs_failure_is_fatal parcels zones joined_gdf apn zone zone_out :
  dup_ids (rows joined_gdf) ≠ [] →
  estimate_utm_crs parcels = None →
  (∃ e, overlap G estimate_utm_crs parcels zones joined_gdf apn zone zone_out
          = Raise e) ∧
  (apn ∈ columns joined_gdf → zone ∈ columns joined_gdf →
   apn ∈ columns parcels → "geometry" ∈ columns parcels →
   zone ∈ columns zones → "geometry" ∈ columns zones →
   overlap G estimate_utm_crs parcels zones joined_gdf apn zone zone_out
     = Raise crs_error).
Proof.
  intros Hdup Hnone.
  assert (0 < length (dup_ids (rows joined_gdf))) as Hlen
    by (destruct (dup_ids (rows joined_gdf)); [done|simpl; lia]).
  split.
  - unfold overlap, multi_map, resolve_dups.
    rewrite decide_True by done. rewrite Hnone.
    destruct (require [apn] joined_gdf) as [e|[]]; [by eexists|].
    destruct (require [zone] joined_gdf) as [e|[]]; [by eexists|].
    cbn [rbind].
    destruct (require [apn] parcels) as [e|[]]; [by eexists|].
    destruct (require [apn; "geometry"] parcels) as [e|[]]; [by eexists|].
    destruct (require [zone; "geometry"] zones) as [e|[]]; by eexists.
  - intros Hja Hjz Hpa Hpg Hzz Hzg.
    unfold overlap, multi_map, resolve_dups.
    rewrite decide_True by done. rewrite Hnone.
    rewrite !require_one_ok by done.
    rewrite !require_all_ok; [done|..];
      by intros ? [->|[->|[]%elem_of_nil]%elem_of_cons]%elem_of_cons.
Qed.


(** C8.  The area path selects among records of strictly positive projected
    area only: an entry of [multi_map] is the zone of a record of positive
    area that no positive-area record of the parcel exceeds; a label whose
    every intersection with the parcel has area zero is not selected; and a
    parcel whose only candidate is such a label still gets it, from
    [single_map], with no entry in [multi_map].  The identifier and
    zone-label columns are not named ["overlap_area"], the column in which
    line 55 stores the areas. *)
Theorem zero_area_never_selected parcels zones joined_gdf apn zone zone_out
    out (mm : list (K * option L)) :
  overlap G estimate_utm_crs parcels zones joined_gdf apn zone zone_out
    = Ok out →
  multi_map G estimate_utm_crs parcels zones (rows joined_gdf) apn zone
    = Ok mm →
  apn ≠ "overlap_area" → zone ≠ "overlap_area" →
  (∀ k (l : option L), (k, l) ∈ mm →
     ∃ c p z,
       estimate_utm_crs parcels = Some c ∧
       p ∈ rows parcels ∧ p_apn p = Some k ∧
       z ∈ rows zones ∧ z_zone z = l ∧
       intersects G (p_geom p) (z_geom z) = true ∧
       (0 < area G (to_crs G c (intersection G (p_geom p) (z_geom z))))%Q ∧
       ∀ p' z', p' ∈ rows parcels → p_apn p' = Some k → z' ∈ rows zones →
                intersects G (p_geom p') (z_geom z') = true →
                (0 < area G (to_crs G c
                               (intersection G (p_geom p') (z_geom z'))))%Q →
                (area G (to_crs G c (intersection G (p_geom p') (z_geom z')))
                 <= area G (to_crs G c
                              (intersection G (p_geom p) (z_geom z))))%Q) ∧
  (∀ k (l : option L),
     (∀ c p z, estimate_utm_crs parcels = Some c →
               p ∈ rows parcels → p_apn p = Some k →
               z ∈ rows zones → z_zone z = l →
               intersects G (p_geom p) (z_geom z) = true →
               (area G (to_crs G c (intersection G (p_geom p) (z_geom z)))
                <= 0)%Q) →
     (k, l) ∉ mm) ∧
  (∀ k (z : L),
     (∃ j, j ∈ rows joined_gdf ∧ j_apn j = Some k ∧ j_zone j = Some z) →
     (∀ j, j ∈ rows joined_gdf → j_apn j = Some k →
           j_zone j = None ∨ j_zone j = Some z) →
     (k ∉ mm.*1) ∧
     (k, Some z) ∈ single_map (rows joined_gdf) ∧
     ∀ i r, rows parcels !! i = Some r → p_apn r = Some k →
            rows out !! i = Some (r, Some z)).
Proof.
  intros Hout Hmm _ _.
  assert (∀ k (l : option L), (k, l) ∈ mm →
     ∃ c p z,
       estimate_utm_crs parcels = Some c ∧
       p ∈ rows parcels ∧ p_apn p = Some k ∧
       z ∈ rows zones ∧ z_zone z = l ∧
       intersects G (p_geom p) (z_geom z) = true ∧
       (0 < area G (to_crs G c (intersection G (p_geom p) (z_geom z))))%Q ∧
       ∀ p' z', p' ∈ rows parcels → p_apn p' = Some k → z' ∈ rows zones →
                intersects G (p_geom p') (z_geom z') = true →
                (0 < area G (to_crs G c
                               (intersection G (p_geom p') (z_geom z'))))%Q →
                (area G (to_crs G c (intersection G (p_geom p') (z_geom z')))
                 <= area G (to_crs G c
                              (intersection G (p_geom p) (z_geom z))))%Q)
    as Hsel.
  { intros k l Hin.
    destruct (multi_map_entry _ _ _ _ _ _ _ _ _ _ Hmm Hin)
      as (c & w & Hc & Hw & Hk & Hz & Hmax).
    pose proof Hw as Hw'.
    apply elem_of_dup_records
      in Hw' as (p & z & Hp & Hzin & Hpk & Hdup & Hzl & Hi & Ha & Hpos).
    rewrite Hk in Hpk, Hdup. rewrite Ha in Hpos.
    exists c, p, z. split_and!; try done; [congruence|].
    intros p' z' Hp' Hpk' Hz' Hi' Hpos'.
    destruct (dup_records_intro G c (rows parcels) (rows zones)
                (rows joined_gdf) p' z' k)
      as (ra & Hra & Hrak & _ & Hraa); try done.
    rewrite <- Hraa, <- Ha. by apply Hmax. }
  split_and!; [exact Hsel| |].
  - intros k l Hzero Hin.
    destruct (Hsel k l Hin) as (c & p & z & Hc & Hp & Hpk & Hz & Hzl & Hi & Hpos & _).
    by apply (Qlt_not_le _ _ Hpos), (Hzero c p z).
  - intros k z (j & Hj & Hjk & Hjz) Hall.
    assert (k ∈ single_ids (rows joined_gdf)) as Hsingle.
    { apply elem_of_single_ids, (nunique_one _ z).
      - apply elem_of_zone_group. eauto.
      - intros v (j' & Hj' & Hk' & <-)%elem_of_zone_group. by apply Hall. }
    split_and!.
    + intros ([k' l] & Hk' & Hin)%list_elem_of_fmap. cbn in Hk'. subst k'.
      assert ((k, l) ∈ filter (λ kv : K * option L, kv.1 = k) mm) as Hf
        by (by apply list_elem_of_filter).
      rewrite (multi_map_no_entry _ _ _ _ _ _ _ _ k Hmm) in Hf
        by (by apply single_dup_disjoint).
      by apply elem_of_nil in Hf.
    + unfold single_map. apply list_elem_of_omap. exists j. split; [done|].
      rewrite Hjk. cbn. rewrite decide_True by done. by rewrite Hjz.
    + intros i r Hr Hk.
      apply overlap_rows in Hout as (mm' & Hmm' & Hrows).
      rewrite (Hrows i r Hr), Hk. do 2 f_equal.
      rewrite (final_label_single _ _ _ _ _ _ _ _ _ Hmm' Hsingle).
      apply last_valid_one.
      * apply elem_of_zone_group. eauto.
      * intros v (j' & Hj' & Hk' & <-)%elem_of_zone_group. by apply Hall.
Qed.


End Claims.

(** * The claims on concrete inputs *)

Example scenario_of_the_specification :
  Line.run Line.utm_found Line.P0 Line.Z0 Line.J0 = Ok Line.out0.
Proof. reflexivity. Qed.

Example scenario_without_crs :
  Line.run Line.utm_missing Line.P0 Line.Z0 Line.J0 = Raise crs_error.
Proof. reflexivity. Qed.

Example scenario_tie_records :
  dup_records Line.ops tt (rows Line.P_x) (rows Line.Z_tie) (rows Line.J_tie)
    = [Line.rec_S; Line.rec_A; Line.rec_B].
Proof. reflexivity. Qed.

(** C1 as stated fails: X has join records for A and B only, and its final
    label is C. *)
Lemma label_outside_join_table :
  Line.run Line.utm_found Line.P_x Line.Z_abc Line.J_ab = Ok Line.out_c ∧
  (Line.parcel "X" 0 10, Some "C") ∈ rows Line.out_c ∧
  ¬ ∃ j, j ∈ rows Line.J_ab ∧
         j_apn j = p_apn (Line.parcel "X" 0 10) ∧ j_zone j = Some "C".
Proof.
  split_and!; [reflexivity|left|].
  intros (j & Hj & _ & Hz). elem_cases Hj; discriminate Hz.
Qed.

Lemma final_label_origin_witness :
  (∃ j, j ∈ rows Line.J_ab ∧ j_apn j = p_apn (Line.parcel "X" 0 10) ∧
        j_zone j = Some "C") ∨
  (∃ k c p z,
      p_apn (Line.parcel "X" 0 10) = Some k ∧ k ∈ dup_ids (rows Line.J_ab) ∧
      Line.utm_found Line.P_x = Some c ∧
      p ∈ rows Line.P_x ∧ p_apn p = Some k ∧
      z ∈ rows Line.Z_abc ∧ z_zone z = Some "C" ∧
      intersects Line.ops (p_geom p) (z_geom z) = true ∧
      (0 < area Line.ops
             (to_crs Line.ops c
                (intersection Line.ops (p_geom p) (z_geom z))))%Q).
Proof.
  apply (final_label_origin Line.ops Line.utm_found Line.P_x Line.Z_abc
           Line.J_ab "APN" "ZONING" "ZONING_final" Line.out_c).
  - reflexivity.
  - discriminate.
  - discriminate.
  - left.
Defined.



Lemma overlap_row_count_witness :
  length (rows Line.out0) = length (rows Line.P0) ∧
  (rows Line.out0).*1 = rows Line.P0.
Proof.
  apply (overlap_row_count Line.ops Line.utm_found Line.P0 Line.Z0 Line.J0
           "APN" "ZONING" "ZONING_final" Line.out0).
  reflexivity.
Defined.


Lemma tie_takes_first_record_witness :
  rows Line.out_tie !! 0 = Some (Line.parcel "X" 0 10, o_zone Line.rec_A.1).
Proof.
  apply (tie_takes_first_record Line.ops Line.utm_found Line.P_x Line.Z_tie
           Line.J_tie "APN" "ZONING" "ZONING_final" Line.out_tie "X" tt
           [Line.rec_S] [Line.rec_B] Line.rec_A).
  - reflexivity.
  - discriminate.
  - discriminate.
  - reflexivity.
  - reflexivity.
  - intros ra Hra. elem_cases Hra. reflexivity.
  - intros ra Hra. elem_cases Hra. discriminate.
  - reflexivity.
  - reflexivity.
Defined.

Lemma crs_failure_is_fatal_witness :
  (∃ e, Line.run Line.utm_missing Line.P0 Line.Z0 Line.J0 = Raise e) ∧
  ("APN" ∈ columns Line.J0 → "ZONING" ∈ columns Line.J0 →
   "APN" ∈ columns Line.P0 → "geometry" ∈ columns Line.P0 →
   "ZONING" ∈ columns Line.Z0 → "geometry" ∈ columns Line.Z0 →
   Line.run Line.utm_missing Line.P0 Line.Z0 Line.J0 = Raise crs_error).
Proof.
  apply (crs_failure_is_fatal Line.ops Line.utm_missing Line.P0 Line.Z0 Line.J0
           "APN" "ZONING" "ZONING_final").
  - discriminate.
  - reflexivity.
Defined.



Lemma zero_area_never_selected_witness :
  (("X", Some "B") ∉ [("X", Some "A")]) ∧
  rows Line.out_touch !! 1 = Some (Line.parcel "Y" 20 30, Some "T").
Proof.
  destruct (zero_area_never_selected Line.ops Line.utm_found Line.P_xy
              Line.Z_touch Line.J_touch "APN" "ZONING" "ZONING_final"
              Line.out_touch [("X", Some "A")])
    as (_ & Hzero & Hsole); [reflexivity|reflexivity|discriminate..|].
  split.
  - apply Hzero. intros [] p z _ Hp Hk Hz Hl Hi.
    elem_cases Hp; try discriminate Hk;
      elem_cases Hz; try discriminate Hl. discriminate.
  - apply (Hsole "Y" "T").
    + exists (Line.join_row "Y" "T"). split_and!; [do 2 right; left|done..].
    + intros j Hj Hk. elem_cases Hj; first [discriminate Hk | cbn; auto].
    + reflexivity.
    + reflexivity.
Defined.



(** * Further properties of [overlap] *)

(** ** What [overlap] reads of the join table *)

Section LabelSets.
Context {L : Type} `{!EqDecision L}.
Implicit Types (vs ws : list (option L)) (z : L).

Lemma nunique_ext vs ws :
  (∀ z, Some z ∈ vs ↔ Some z ∈ ws) → nunique vs = nunique ws.
Proof.
  intros Hsame. unfold nunique. apply Permutation_length, NoDup_Permutation.
  - apply NoDup_remove_dups.
  - apply NoDup_remove_dups.
  - intros z. by rewrite !elem_of_remove_dups, !elem_of_valid.
Qed.

Lemma nunique_one_inv vs :
  nunique vs = 1 →
  ∃ z, Some z ∈ vs ∧ ∀ v, v ∈ vs → v = None ∨ v = Some z.
Proof.
  unfold nunique. intros Hlen.
  destruct (remove_dups (omap id vs)) as [|z [|z' l]] eqn:E; try done.
  assert (∀ y, Some y ∈ vs ↔ y = z) as Hz.
  { intros y. rewrite <- elem_of_valid, <- elem_of_remove_dups, E.
    apply list_elem_of_singleton. }
  exists z. split; [by apply Hz|].
  intros [y|] Hv; [|by left]. right. f_equal. by apply Hz.
Qed.

Lemma last_valid_app vs ws :
  last_valid (vs ++ ws) =
    match last_valid ws with
    | Some z => Some z
    | None => last_valid vs
    end.
Proof.
  unfold last_valid. rewrite filter_app, last_app.
  destruct (last (filter is_Some ws)) as [v|] eqn:E; [|done].
  by apply last_Some_elem_of, list_elem_of_filter in E as [[y ->] _].
Qed.

Lemma last_valid_ext_one vs ws :
  (∀ z, Some z ∈ vs ↔ Some z ∈ ws) → nunique vs = 1 →
  last_valid vs = last_valid ws.
Proof.
  intros Hsame (z & Hz & Hall)%nunique_one_inv.
  rewrite (last_valid_one vs z), (last_valid_one ws z); try done.
  - by apply Hsame.
  - intros [y|] Hv; [|by left]. apply Hsame, Hall in Hv. exact Hv.
Qed.
End LabelSets.

Section JoinTable.
Context {K L Geom CRS : Type} `{!EqDecision K, !EqDecision L}.
Variable G : GeoOps Geom CRS.
Variable estimate_utm_crs : Frame (ParcelRow K Geom) → option CRS.
Implicit Types (parcels : Frame (ParcelRow K Geom)).
Implicit Types (zones : Frame (ZoneRow L Geom)).
Implicit Types (J : list (JoinRow K L Geom)) (k : K).
Implicit Types (apn zone zone_out : string).

Lemma length_pos_elem_of {A} (l : list A) : 0 < length l ↔ ∃ x, x ∈ l.
Proof.
  destruct l as [|x l]; simpl.
  - split; [lia|]. by intros [x []%elem_of_nil].
  - split; [|lia]. intros _. exists x. left.
Qed.

Lemma dup_parcels_ext (P : list (ParcelRow K Geom)) J J' :
  (∀ k, k ∈ dup_ids J ↔ k ∈ dup_ids J') →
  dup_parcels P J = dup_parcels P J'.
Proof.
  intros Hsame. unfold dup_parcels.
  induction P as [|r P IH]; [done|].
  cbn [omap list_omap]. fold (@omap list _).
  destruct (p_apn r) as [k|]; cbn [mbind option_bind]; [|exact IH].
  destruct (decide (k ∈ dup_ids J)) as [Hin|Hout].
  - rewrite decide_True by (by apply Hsame). f_equal. exact IH.
  - rewrite decide_False by (by rewrite <- Hsame). exact IH.
Qed.

Lemma multi_map_ext parcels zones J J' apn zone :
  (∀ k, k ∈ dup_ids J ↔ k ∈ dup_ids J') →
  multi_map G estimate_utm_crs parcels zones J apn zone =
  multi_map G estimate_utm_crs parcels zones J' apn zone.
Proof.
  intros Hsame. unfold multi_map, resolve_dups.
  rewrite (dup_parcels_ext _ J J' Hsame).
  destruct (decide (0 < length (dup_ids J))) as [Hpos|Hz].
  - rewrite decide_True; [done|].
    apply length_pos_elem_of in Hpos as [k Hk].
    apply length_pos_elem_of. exists k. by apply Hsame.
  - rewrite decide_False; [done|]. intros [k Hk]%length_pos_elem_of.
    apply Hz, length_pos_elem_of. exists k. by apply Hsame.
Qed.

(** Two join tables with the same identifier/label pairs give the same
    result. *)
Lemma overlap_join_ext parcels zones (cols : list string) J J' apn zone
    zone_out :
  (∀ k (z : L), Some z ∈ zone_group J k ↔ Some z ∈ zone_group J' k) →
  overlap G estimate_utm_crs parcels zones (mkFrame cols J) apn zone zone_out =
  overlap G estimate_utm_crs parcels zones (mkFrame cols J') apn zone zone_out.
Proof.
  intros Hset.
  assert (∀ k, nunique (zone_group J k) = nunique (zone_group J' k)) as Hn
    by (intros k; apply nunique_ext, Hset).
  assert (∀ k, k ∈ dup_ids J ↔ k ∈ dup_ids J') as Hdup
    by (intros k; by rewrite !elem_of_dup_ids, Hn).
  unfold overlap. cbn [rows].
  change (require [apn] (mkFrame cols J'))
    with (require [apn] (mkFrame cols J)).
  change (require [zone] (mkFrame cols J'))
    with (require [zone] (mkFrame cols J)).
  destruct (require [apn] (mkFrame cols J)) as [e|[]]; [done|].
  destruct (require [zone] (mkFrame cols J)) as [e|[]]; [done|].
  cbn [rbind]. rewrite (multi_map_ext _ _ J J' _ _ Hdup).
  destruct (multi_map _ _ _ _ J' _ _) as [e|mm]; [done|]. cbn [rbind].
  destruct (require [apn] parcels) as [e|[]]; [done|]. cbn [rbind].
  do 2 f_equal. rewrite !merge_left_groupby_last.
  apply list_fmap_ext. intros _ r _. f_equal.
  destruct (p_apn r) as [k|]; [|done].
  rewrite !final_label_app, !single_map_group, !last_valid_app.
  destruct (last_valid _) as [z|]; [done|].
  destruct (decide (k ∈ single_ids J)) as [Hin|Hout].
  - rewrite decide_True by (by rewrite elem_of_single_ids, <- Hn,
                               <- elem_of_single_ids).
    apply last_valid_ext_one; [apply Hset|]. by apply elem_of_single_ids.
  - rewrite decide_False; [done|].
    by rewrite elem_of_single_ids, <- Hn, <- elem_of_single_ids.
Qed.

(** X1.  [overlap] reads the join table as a set of pairs of an identifier
    and a label that is not null: two tables with the same pairs give the
    same result, error or output. *)
Theorem join_table_read_as_set parcels zones (cols : list string) J J' apn
    zone zone_out :
  (∀ k (z : L),
     (∃ j, j ∈ J ∧ j_apn j = Some k ∧ j_zone j = Some z) ↔
     (∃ j, j ∈ J' ∧ j_apn j = Some k ∧ j_zone j = Some z)) →
  overlap G estimate_utm_crs parcels zones (mkFrame cols J) apn zone zone_out =
  overlap G estimate_utm_crs parcels zones (mkFrame cols J') apn zone zone_out.
Proof.
  intros Hset. apply overlap_join_ext. intros k z.
  by rewrite !elem_of_zone_group.
Qed.

(** X2.  The order of the join records is immaterial. *)
Theorem join_order_irrelevant parcels zones (cols : list string) J J' apn
    zone zone_out :
  J ≡ₚ J' →
  overlap G estimate_utm_crs parcels zones (mkFrame cols J) apn zone zone_out =
  overlap G estimate_utm_crs parcels zones (mkFrame cols J') apn zone zone_out.
Proof.
  intros HP. apply overlap_join_ext. intros k z.
  rewrite !elem_of_zone_group. by setoid_rewrite HP.
Qed.

(** X3.  Join records with a null identifier or a null label are ignored:
    dropping them changes nothing. *)
Theorem null_join_rows_ignored parcels zones (cols : list string) J apn zone
    zone_out :
  overlap G estimate_utm_crs parcels zones (mkFrame cols J) apn zone zone_out =
  overlap G estimate_utm_crs parcels zones
    (mkFrame cols (filter (λ j, is_Some (j_apn j) ∧ is_Some (j_zone j)) J))
    apn zone zone_out.
Proof.
  apply overlap_join_ext. intros k z. rewrite !elem_of_zone_group. split.
  - intros (j & Hj & Hk & Hz). exists j. split; [|done].
    apply list_elem_of_filter. rewrite Hk, Hz. eauto.
  - intros (j & [_ Hj]%list_elem_of_filter & Hk & Hz). eauto.
Qed.

(** X4.  The geometry of the join records is never read: replacing it
    changes nothing. *)
Theorem join_geometry_never_read parcels zones (cols : list string) J
    (g : JoinRow K L Geom → Geom) apn zone zone_out :
  overlap G estimate_utm_crs parcels zones (mkFrame cols J) apn zone zone_out =
  overlap G estimate_utm_crs parcels zones
    (mkFrame cols ((λ j, mkJoin (j_apn j) (j_zone j) (g j)) <$> J))
    apn zone zone_out.
Proof.
  apply overlap_join_ext. intros k z.
  rewrite !elem_of_zone_group. setoid_rewrite list_elem_of_fmap. split.
  - intros (j & Hj & Hk & Hz). eexists. split; [by exists j|done].
  - intros (j' & (j & -> & Hj) & Hk & Hz). by exists j.
Qed.
End JoinTable.

(** ** When [overlap] returns and when it raises *)

Section Outcome.
Context {K L Geom CRS : Type} `{!EqDecision K, !EqDecision L}.
Variable G : GeoOps Geom CRS.
Variable estimate_utm_crs : Frame (ParcelRow K Geom) → option CRS.
Implicit Types (parcels : Frame (ParcelRow K Geom)).
Implicit Types (zones : Frame (ZoneRow L Geom)).
Implicit Types (joined_gdf : Frame (JoinRow K L Geom)).
Implicit Types (J : list (JoinRow K L Geom)) (k : K).
Implicit Types (mm : list (K * option L)) (apn zone zone_out : string).

Lemma require_cases {R} (cs : list string) (df : Frame R) :
  require cs df = Ok tt ∨ ∃ missing, require cs df = Raise (KeyError missing).
Proof.
  unfold require. destruct (filter _ cs) as [|m ms]; [by left|].
  right. by eexists.
Qed.



(** X6.  The error of line 51 is raised only when every column looked up
    before it is there, some identifier is ambiguous and
    [estimate_utm_crs] returns no CRS: a missing column is reported first,
    by its [KeyError].  Conversely these conditions raise it, the overlay
    of line 41 having returned. *)
Theorem crs_error_iff parcels zones joined_gdf apn zone zone_out :
  overlap G estimate_utm_crs parcels zones joined_gdf apn zone zone_out
    = Raise crs_error ↔
  apn ∈ columns joined_gdf ∧ zone ∈ columns joined_gdf ∧
  apn ∈ columns parcels ∧ "geometry" ∈ columns parcels ∧
  zone ∈ columns zones ∧ "geometry" ∈ columns zones ∧
  dup_ids (rows joined_gdf) ≠ [] ∧ estimate_utm_crs parcels = None.
Proof.
  split.
  - unfold overlap, multi_map, resolve_dups. intros H.
    destruct (require_cases [apn] joined_gdf) as [E1|[ms E1]];
      rewrite E1 in H; cbn [rbind] in H; [|done].
    destruct (require_cases [zone] joined_gdf) as [E2|[ms E2]];
      rewrite E2 in H; cbn [rbind] in H; [|done].
    destruct (require_cases [apn] parcels) as [E3|[ms E3]];
      rewrite E3 in H; cbn [rbind] in H.
    + destruct (decide (0 < length (dup_ids (rows joined_gdf))))
        as [Hpos|Hz]; [|done].
      destruct (require_cases [apn; "geometry"] parcels) as [E4|[ms E4]];
        rewrite E4 in H; cbn [rbind] in H; [|done].
      destruct (require_cases [zone; "geometry"] zones) as [E5|[ms E5]];
        rewrite E5 in H; cbn [rbind] in H; [|done].
      destruct (estimate_utm_crs parcels) as [c|] eqn:Ec.
      { by destruct (decide _). }
      split_and!; try done.
      * apply (require_Ok_inv _ _ E1). left.
      * apply (require_Ok_inv _ _ E2). left.
      * apply (require_Ok_inv _ _ E3). left.
      * apply (require_Ok_inv _ _ E4). right. left.
      * apply (require_Ok_inv _ _ E5). left.
      * apply (require_Ok_inv _ _ E5). right. left.
      * intros E. rewrite E in Hpos. simpl in Hpos. lia.
    + revert H. destruct (decide _); [|done].
      destruct (require [apn; "geometry"] parcels) as [e|[]]; [done|].
      cbn [rbind].
      destruct (require [zone; "geometry"] zones) as [e|[]]; [done|].
      cbn [rbind]. destruct (estimate_utm_crs parcels); [|done].
      by destruct (decide _).
  - intros (Hja & Hjz & Hpa & Hpg & Hzz & Hzg & Hdup & Hnone).
    unfold overlap, multi_map, resolve_dups.
    rewrite decide_True
      by (destruct (dup_ids (rows joined_gdf)); [done|simpl; lia]).
    rewrite Hnone. rewrite !require_one_ok by done.
    rewrite !require_all_ok; [done|..];
      by intros ? [->|[->|[]%elem_of_nil]%elem_of_cons]%elem_of_cons.
Qed.

End Outcome.

(** ** The two maps and their combination *)

Section Maps.
Context {K L Geom CRS : Type} `{!EqDecision K, !EqDecision L}.
Variable G : GeoOps Geom CRS.
Variable estimate_utm_crs : Frame (ParcelRow K Geom) → option CRS.
Implicit Types (parcels : Frame (ParcelRow K Geom)).
Implicit Types (zones : Frame (ZoneRow L Geom)).
Implicit Types (joined_gdf : Frame (JoinRow K L Geom)).
Implicit Types (out : Frame (ParcelRow K Geom * option L)).
Implicit Types (J : list (JoinRow K L Geom)) (k : K).
Implicit Types (mm : list (K * option L)) (apn zone zone_out : string).

Lemma elem_of_single_map_keys J k :
  k ∈ (single_map J).*1 ↔ k ∈ single_ids J.
Proof.
  unfold single_map. rewrite list_elem_of_fmap. split.
  - intros ([k' v] & -> & (j & Hj & Hsel)%list_elem_of_omap).
    destruct (j_apn j) as [k''|]; [|done]. cbn in Hsel.
    destruct (decide (k'' ∈ single_ids J)); [|done]. by injection Hsel as <- _.
  - intros Hk. pose proof Hk as Hn. apply elem_of_single_ids in Hn.
    destruct (nunique_group_pos J k) as (j & Hj & Hjk); [lia|].
    exists (k, j_zone j). split; [done|].
    apply list_elem_of_omap. exists j. split; [done|].
    rewrite Hjk. cbn. by rewrite decide_True.
Qed.

Lemma multi_map_keys_dup parcels zones J apn zone mm k :
  multi_map G estimate_utm_crs parcels zones J apn zone = Ok mm →
  k ∈ mm.*1 → k ∈ dup_ids J.
Proof.
  intros Hmm ([k' v] & -> & Hin)%list_elem_of_fmap. cbn.
  destruct (decide (k' ∈ dup_ids J)) as [|Hout]; [done|].
  assert ((k', v) ∈ filter (λ kv : K * option L, kv.1 = k') mm) as Hf
    by (by apply list_elem_of_filter).
  rewrite (multi_map_no_entry _ _ _ _ _ _ _ _ k' Hmm Hout) in Hf.
  by apply elem_of_nil in Hf.
Qed.

Lemma winners_keys (pa : list (OvRow K L Geom * Q)) (ks : list K) :
  (λ w, o_apn w.1) <$> omap (winner_of pa) ks =
    filter (λ k, is_Some (winner_of pa k)) ks.
Proof.
  induction ks as [|k ks IH]; [done|].
  cbn [omap list_omap]. fold (@omap list _). rewrite filter_cons.
  destruct (winner_of pa k) as [w|] eqn:E.
  - rewrite decide_True by done. rewrite fmap_cons.
    apply winner_of_Some in E as (_ & -> & _). f_equal. exact IH.
  - rewrite decide_False by (by intros []). exact IH.
Qed.

Lemma multi_map_keys_NoDup parcels zones J apn zone mm :
  multi_map G estimate_utm_crs parcels zones J apn zone = Ok mm →
  NoDup mm.*1.
Proof.
  intros [[_ ->]|(_ & c & _ & ->)]%multi_map_Ok_inv; [constructor|].
  rewrite multi_map_of_eq by apply dup_records_idx_NoDup.
  rewrite <- list_fmap_compose.
  change (NoDup ((λ w : OvRow K L Geom * Q, o_apn w.1) <$>
                   omap (winner_of (dup_records G c (rows parcels)
                                      (rows zones) J))
                        (remove_dups ((λ ra, o_apn ra.1) <$>
                           dup_records G c (rows parcels) (rows zones) J)))).
  rewrite winners_keys. apply NoDup_filter, NoDup_remove_dups.
Qed.

(** X7.  When neither the identifier column nor the zone-label column is
    named ["overlap_area"], [multi_map] has at most one entry for an
    identifier, only for ambiguous identifiers, and shares no identifier
    with [single_map], whose identifiers are the unambiguous ones: the
    precedence of [multi_map] at line 70 never decides a label. *)
Theorem maps_never_collide parcels zones J apn zone mm :
  multi_map G estimate_utm_crs parcels zones J apn zone = Ok mm →
  apn ≠ "overlap_area" → zone ≠ "overlap_area" →
  NoDup mm.*1 ∧
  (∀ k, k ∈ mm.*1 → k ∈ dup_ids J) ∧
  (∀ k, k ∈ (single_map J).*1 ↔ k ∈ single_ids J) ∧
  (∀ k, k ∈ (single_map J).*1 → k ∉ mm.*1).
Proof.
  intros Hmm _ _. split_and!.
  - by apply (multi_map_keys_NoDup parcels zones J apn zone).
  - intros k. by apply (multi_map_keys_dup parcels zones J apn zone).
  - apply elem_of_single_map_keys.
  - intros k Hs%elem_of_single_map_keys Hm.
    apply (single_dup_disjoint J k Hs).
    by apply (multi_map_keys_dup parcels zones J apn zone mm).
Qed.

(** X8.  [final_map] has exactly one entry for each unambiguous identifier
    and for each identifier of [multi_map], and no other entry. *)
Theorem final_map_index parcels zones J apn zone mm :
  multi_map G estimate_utm_crs parcels zones J apn zone = Ok mm →
  NoDup (groupby_last (single_map J ++ mm)).*1 ∧
  ∀ k, k ∈ (groupby_last (single_map J ++ mm)).*1 ↔
       k ∈ single_ids J ∨ k ∈ mm.*1.
Proof.
  intros Hmm. split; [apply groupby_last_keys_NoDup|]. intros k.
  unfold groupby_last. rewrite <- list_fmap_compose.
  rewrite (list_fmap_ext _ id) by done. rewrite list_fmap_id.
  rewrite elem_of_remove_dups, fmap_app, elem_of_app.
  by rewrite elem_of_single_map_keys.
Qed.


(** X10.  Parcel rows with the same identifier get the same final label. *)
Theorem same_identifier_same_label parcels zones joined_gdf apn zone zone_out
    out i j (r1 r2 : ParcelRow K Geom) (l1 l2 : option L) :
  overlap G estimate_utm_crs parcels zones joined_gdf apn zone zone_out
    = Ok out →
  rows out !! i = Some (r1, l1) → rows out !! j = Some (r2, l2) →
  p_apn r1 = p_apn r2 → l1 = l2.
Proof.
  intros (_ & _ & _ & mm & _ & ->)%overlap_Ok_inv. cbn [rows].
  rewrite !list_lookup_fmap.
  intros (r & _ & [= -> ->])%fmap_Some (r' & _ & [= -> ->])%fmap_Some Heq.
  by rewrite Heq.
Qed.
End Maps.

(** ** The further properties on concrete inputs *)

Example scenario_output_name_taken :
  Line.run Line.utm_found Line.P_labelled Line.Z0 Line.J0 =
    Ok (mkFrame ["APN"; "ZONING_final_x"; "geometry"; "ZONING_final_y"]
          [(Line.parcel "P2" 500 600, Some "R1")]).
Proof. reflexivity. Qed.

Example scenario_no_positive_overlap :
  Line.run Line.utm_found Line.P_x Line.Z_far Line.J_ab = Ok Line.out_null.
Proof. reflexivity. Qed.

Example scenario_repeated_identifier :
  Line.run Line.utm_found Line.P_dup Line.Z_abc Line.J_ab = Ok Line.out_dup.
Proof. reflexivity. Qed.

Lemma join_table_read_as_set_witness :
  Line.run Line.utm_found Line.P0 Line.Z0 Line.J_single =
  Line.run Line.utm_found Line.P0 Line.Z0 Line.J_pairs.
Proof.
  apply (join_table_read_as_set Line.ops Line.utm_found Line.P0 Line.Z0
           Line.join_cols (rows Line.J_single) (rows Line.J_pairs)).
  intros k z. split; intros (j & Hj & Hk & Hz); elem_cases Hj;
    try discriminate Hz;
    injection Hk as <-; injection Hz as <-;
    (eexists (Line.join_row _ _); split_and!; [|reflexivity..];
     apply list_elem_of_In; cbn; auto 10).
Defined.

Lemma join_order_irrelevant_witness :
  Line.run Line.utm_found Line.P0 Line.Z0 Line.J0 =
  Line.run Line.utm_found Line.P0 Line.Z0 Line.J0_swapped.
Proof.
  apply (join_order_irrelevant Line.ops Line.utm_found Line.P0 Line.Z0
           Line.join_cols (rows Line.J0) (rows Line.J0_swapped)).
  apply perm_swap.
Defined.

Lemma maps_never_collide_witness :
  NoDup [("X", Some "A")].*1 ∧
  (∀ k, k ∈ [("X", Some "A")].*1 → k ∈ dup_ids (rows Line.J_touch)) ∧
  (∀ k, k ∈ (single_map (rows Line.J_touch)).*1 ↔
        k ∈ single_ids (rows Line.J_touch)) ∧
  (∀ k, k ∈ (single_map (rows Line.J_touch)).*1 →
        k ∉ [("X", Some "A")].*1).
Proof.
  apply (maps_never_collide Line.ops Line.utm_found Line.P_xy Line.Z_touch
           (rows Line.J_touch) "APN" "ZONING").
  - reflexivity.
  - discriminate.
  - discriminate.
Defined.

Lemma final_map_index_witness :
  NoDup (groupby_last (single_map (rows Line.J_touch) ++ [("X", Some "A")])).*1 ∧
  ∀ k, k ∈ (groupby_last
              (single_map (rows Line.J_touch) ++ [("X", Some "A")])).*1 ↔
       k ∈ single_ids (rows Line.J_touch) ∨ k ∈ [("X", Some "A")].*1.
Proof.
  apply (final_map_index Line.ops Line.utm_found Line.P_xy Line.Z_touch
           (rows Line.J_touch) "APN" "ZONING").
  reflexivity.
Defined.


Lemma same_identifier_same_label_witness : Some "C" = Some "C".
Proof.
  apply (same_identifier_same_label Line.ops Line.utm_found Line.P_dup
           Line.Z_abc Line.J_ab "APN" "ZONING" "ZONING_final" Line.out_dup
           0 1 (Line.parcel "X" 0 4) (Line.parcel "X" 4 10)).
  - reflexivity.
  - reflexivity.
  - reflexivity.
  - reflexivity.
Defined.



(** ** What [overlap] reads of the Zone collection *)

Section ZoneLocality.
Context {K L Geom CRS : Type} `{!EqDecision K, !EqDecision L}.
Variable G : GeoOps Geom CRS.
Variable estimate_utm_crs : Frame (ParcelRow K Geom) → option CRS.
Implicit Types (parcels : Frame (ParcelRow K Geom)).
Implicit Types (zones : Frame (ZoneRow L Geom)).
Implicit Types (joined_gdf : Frame (JoinRow K L Geom)).
Implicit Types (apn zone zone_out : string).

Lemma overlay_pairs_drop_zones (dfa : list (K * Geom))
    (Z : list (ZoneRow L Geom)) (keep : ZoneRow L Geom → Prop)
    `{!∀ z, Decision (keep z)} :
  (∀ p z, p ∈ dfa → z ∈ Z → ¬ keep z →
          intersects G p.2 (z_geom z) = false) →
  overlay_pairs G dfa (zone_cols (filter keep Z)) =
  overlay_pairs G dfa (zone_cols Z).
Proof.
  intros Hmiss. unfold overlay_pairs.
  induction dfa as [|p dfa IH]; [done|].
  cbn [mbind list_bind]. fold (@mbind list _). f_equal.
  - assert (∀ z, z ∈ Z → ¬ keep z → intersects G p.2 (z_geom z) = false)
      as Hp by (intros z Hz Hk; apply Hmiss; [left|done..]).
    clear IH Hmiss. unfold zone_cols.
    induction Z as [|z Z IHZ]; [done|].
    rewrite filter_cons. destruct (decide (keep z)) as [Hk|Hk].
    + rewrite !fmap_cons. cbn [omap list_omap]. fold (@omap list _).
      cbn [snd fst]. destruct (intersects G p.2 (z_geom z)); [f_equal|];
        apply IHZ; intros z' Hz'; apply Hp; by right.
    + rewrite fmap_cons. cbn [omap list_omap]. fold (@omap list _).
      cbn [snd]. rewrite (Hp z) by (done || left).
      apply IHZ. intros z' Hz'. apply Hp. by right.
  - apply IH. intros p' z Hp' Hz Hk. apply Hmiss; [by right|done..].
Qed.

(** X12.  Zone rows that intersect no parcel row of an ambiguous identifier
    do not matter: dropping them from the Zone collection changes nothing. *)
Theorem distant_zones_do_not_matter parcels zones joined_gdf apn zone zone_out
    (keep : ZoneRow L Geom → Prop) `{!∀ z, Decision (keep z)} :
  (∀ p z k, p ∈ rows parcels → p_apn p = Some k →
            k ∈ dup_ids (rows joined_gdf) → z ∈ rows zones → ¬ keep z →
            intersects G (p_geom p) (z_geom z) = false) →
  overlap G estimate_utm_crs parcels zones joined_gdf apn zone zone_out =
  overlap G estimate_utm_crs parcels
    (mkFrame (columns zones) (filter keep (rows zones)))
    joined_gdf apn zone zone_out.
Proof.
  intros Hmiss. unfold overlap, multi_map, resolve_dups, overlay.
  cbn [rows columns].
  change (require [zone; "geometry"]
            (mkFrame (columns zones) (filter keep (rows zones))))
    with (require [zone; "geometry"] zones).
  rewrite overlay_pairs_drop_zones; [done|].
  intros [k g] z (p & Hp & Hk & Hg & Hdup)%elem_of_dup_parcels Hz Hkeep.
  cbn in *. rewrite <- Hg. by apply (Hmiss p z k).
Qed.
End ZoneLocality.

Lemma distant_zones_do_not_matter_witness :
  Line.run Line.utm_found Line.P_xy Line.Z_touch Line.J_touch =
  Line.run Line.utm_found Line.P_xy
    (mkFrame (columns Line.Z_touch)
       (filter (λ z, z_zone z ≠ Some "T") (rows Line.Z_touch)))
    Line.J_touch.
Proof.
  apply (distant_zones_do_not_matter Line.ops Line.utm_found Line.P_xy
           Line.Z_touch Line.J_touch "APN" "ZONING" "ZONING_final"
           (λ z, z_zone z ≠ Some "T")).
  intros p z k Hp Hk Hdup Hz Hkeep.
  elem_cases Hdup. elem_cases Hp; try discriminate Hk.
  elem_cases Hz; first [reflexivity | destruct Hkeep; discriminate].
Defined.
